(** * Raster editing engine of the image edit modal

    A shallow embedding of the raster part of [ImageEditModal]
    (src/components/AudioPlayer.tsx, second document of the file):
    the two canvas layers, the snapshot history ([saveHistory],
    [handleUndo]), the bucket tool ([handleBucketFill],
    [handleMouseDown]) and the export ([handleSave]).

    Conventions.
    - A canvas bitmap and an [ImageData] are both a width, a height and
      the flat RGBA byte array ([Uint8ClampedArray]) in row-major order.
    - JS numbers that index pixels are [Z]; [undefined] is [None].
    - Pointer geometry and the export transform use JS doubles; they are
      idealised as rationals ([Q]).
    - A handler that can throw returns [result].
    - A bitmap holds the RGBA bytes as they were written; the rounding a
      browser may apply to colours under a partial alpha is not modelled.
    - The handlers run while the modal is mounted: the canvas refs and
      their 2D contexts are there, so the early returns on an empty ref
      are left out (except in [handleSave], where they are arguments).
    - [brushColor] is kept as the three numbers that
      [parseInt(hex.substring(..), 16)] reads from the [#rrggbb] string. *)

From stdpp Require Import base list.
From Stdlib Require Import ZArith QArith Lia.
Local Open Scope Z_scope.

(** ** Typed arrays *)

(** Conversion applied by a [Uint8ClampedArray] store. *)
Definition clamp8 (v : Z) : Z := Z.max 0 (Z.min 255 v).

(** [a[i]]: [undefined] outside the array. *)
Definition rd (a : list Z) (i : Z) : option Z :=
  if i <? 0 then None else a !! Z.to_nat i.

(** [a[i] = v]: a store outside a typed array is ignored. *)
Definition wr (a : list Z) (i v : Z) : list Z :=
  if i <? 0 then a else <[Z.to_nat i := clamp8 v]> a.

(** [x === y] on values that are a number or [undefined]. *)
Definition strict_eq (x y : option Z) : bool :=
  match x, y with
  | Some u, Some v => u =? v
  | None, None => true
  | _, _ => false
  end.

(** [x > n]: [undefined] converts to NaN and the comparison is false. *)
Definition js_gt (x : option Z) (n : Z) : bool :=
  match x with
  | Some u => n <? u
  | None => false
  end.

(** ** Bitmaps *)

Record ImageData := mkImageData {
  width : Z;
  height : Z;
  data : list Z
}.

(** Copy of the pixels of [src] over a [w]-wide array [base], both with
    their top-left corners aligned; cells of [base] outside [src] are kept.
    This is the pixel transfer of both [getImageData(0, 0, w, h)] (onto a
    transparent array) and [putImageData(img, 0, 0)] (onto the bitmap). *)
Definition blit (src : ImageData) (w : Z) (base : list Z) : list Z :=
  imap (fun i old =>
          let p := Z.of_nat i / 4 in
          let x := p mod w in
          let y := p / w in
          if (x <? width src) && (y <? height src)
          then default old
                 (rd (data src) ((y * width src + x) * 4 + Z.of_nat i mod 4))
          else old) base.

Definition transparent (w h : Z) : list Z :=
  replicate (Z.to_nat (4 * w * h)) 0.
Arguments transparent : simpl never.

Inductive Exn := IndexSizeError | TypeError.

Inductive result (A : Type) :=
| Ok (a : A)
| Throw (e : Exn)
| Diverge.
Arguments Ok {A} a.
Arguments Throw {A} e.
Arguments Diverge {A}.

#[global] Instance result_bind : MBind result := fun A B k m =>
  match m with
  | Ok a => k a
  | Throw e => Throw e
  | Diverge => Diverge
  end.

(** [ctx.getImageData(0, 0, w, h)]; a zero width or height throws. *)
Definition getImageData (c : ImageData) (w h : Z) : result ImageData :=
  if (w =? 0) || (h =? 0) then Throw IndexSizeError
  else Ok (mkImageData w h (blit c w (transparent w h))).

(** [ctx.putImageData(img, 0, 0)]. *)
Definition putImageData (img : ImageData) (c : ImageData) : ImageData :=
  mkImageData (width c) (height c) (blit img (width c) (data c)).

(** [clearCanvas]: [ctx.clearRect(0, 0, canvas.width, canvas.height)]. *)
Definition clearCanvas (c : ImageData) : ImageData :=
  mkImageData (width c) (height c) (transparent (width c) (height c)).

(** ** Editor state *)

Inductive ToolMode := move | brush | bucket | mask_tool | eraser.

Record Snapshot := mkSnapshot {
  drawing : ImageData;
  mask : ImageData
}.

Record Session := mkSession {
  drawingCanvas : ImageData;
  maskCanvas : ImageData;
  history : list Snapshot;
  historyStep : Z;
  mode : ToolMode;
  brushColor : Z * Z * Z;        (* the parsed #rrggbb *)
  pan : Q * Q;
  zoom : Q;
  isDragging : bool;
  dragStart : Q * Q;
  isDrawing : bool;
  hasInteracted : bool
}.

Definition with_canvases (d m : ImageData) (s : Session) : Session :=
  mkSession d m (history s) (historyStep s) (mode s) (brushColor s)
            (pan s) (zoom s) (isDragging s) (dragStart s)
            (isDrawing s) (hasInteracted s).

Definition with_history (hs : list Snapshot) (k : Z) (s : Session) : Session :=
  mkSession (drawingCanvas s) (maskCanvas s) hs k (mode s) (brushColor s)
            (pan s) (zoom s) (isDragging s) (dragStart s)
            (isDrawing s) (hasInteracted s).

(** ** History *)

(** [arr.slice(0, e)]; a negative [e] counts from the end. *)
Definition slice0 {A} (l : list A) (e : Z) : list A :=
  if e <? 0 then take (Z.to_nat (Z.max (Z.of_nat (length l) + e) 0)) l
  else take (Z.to_nat e) l.

Definition HISTORY_CAP : Z := 20.

Definition saveHistory (s : Session) : result Session :=
  let w := width (drawingCanvas s) in
  let h := height (drawingCanvas s) in
  drawingData ← getImageData (drawingCanvas s) w h;
  maskData ← getImageData (maskCanvas s) w h;
  let newHistory := slice0 (history s) (historyStep s + 1)
                      ++ [mkSnapshot drawingData maskData] in
  let newHistory :=
    if Z.of_nat (length newHistory) >? HISTORY_CAP
    then tail newHistory else newHistory in
  Ok (with_history newHistory (Z.of_nat (length newHistory) - 1) s).

Definition handleUndo (s : Session) : result Session :=
  if historyStep s >? 0 then
    let prevStep := historyStep s - 1 in
    match history s !! Z.to_nat prevStep with
    | None => Throw TypeError        (* [state.drawing] of [undefined] *)
    | Some state =>
        Ok (with_history (history s) prevStep
              (with_canvases (putImageData (drawing state) (drawingCanvas s))
                             (putImageData (mask state) (maskCanvas s)) s))
    end
  else if historyStep s =? 0 then
    Ok (with_history (history s) (-1)
          (with_canvases (clearCanvas (drawingCanvas s))
                         (clearCanvas (maskCanvas s)) s))
  else Ok s.

(** ** Bucket fill *)

Section FillLoop.
Variables (width height : Z) (maskPixels : list Z).
Variables (startR startG startB startA : option Z) (r g b a : Z).

(** One iteration of the [while (stack.length)] loop after
    [stack.pop()] gave [(cx, cy)]; [stack] is what is left.  The head
    of the list is the top of the stack. *)
Definition fillStep (cx cy : Z) (stack : list (Z * Z)) (pixels : list Z)
  : list (Z * Z) * list Z :=
  let pos := (cy * width + cx) * 4 in
  if (cx <? 0) || (cx >=? width) || (cy <? 0) || (cy >=? height)
  then (stack, pixels)
  else if js_gt (rd maskPixels (pos + 3)) 10 then (stack, pixels)
  else if strict_eq (rd pixels pos) startR
          && strict_eq (rd pixels (pos + 1)) startG
          && strict_eq (rd pixels (pos + 2)) startB
          && strict_eq (rd pixels (pos + 3)) startA
  then
    let pixels := wr pixels pos r in
    let pixels := wr pixels (pos + 1) g in
    let pixels := wr pixels (pos + 2) b in
    let pixels := wr pixels (pos + 3) a in
    ((cx, cy - 1) :: (cx, cy + 1) :: (cx - 1, cy) :: (cx + 1, cy) :: stack,
     pixels)
  else (stack, pixels).

(** The loop, bounded by [fuel] iterations; [None] when they run out. *)
Fixpoint fillLoop (fuel : nat) (stack : list (Z * Z)) (pixels : list Z)
  : option (list Z) :=
  match fuel with
  | O => None
  | S fuel' =>
      match stack with
      | [] => Some pixels
      | (cx, cy) :: stack' =>
          let '(stack'', pixels') := fillStep cx cy stack' pixels in
          fillLoop fuel' stack'' pixels'
      end
  end.
End FillLoop.

(** Iterations granted to the loop for a [w] by [h] buffer. *)
Definition fillFuel (w h : Z) : nat := S (S (Z.to_nat (4 * w * h))).

(** The seed [(startX, startY)] is [Math.floor] of the pointer position
    mapped by [getCanvasCoordinates]. *)
Definition handleBucketFill (s : Session) (startX startY : Z) : result Session :=
  let canvas := drawingCanvas s in
  let width := width canvas in
  let height := height canvas in
  imgData ← getImageData canvas width height;
  maskData ← getImageData (maskCanvas s) width height;
  let pixels := data imgData in
  let maskPixels := data maskData in
  let '(r, g, b) := brushColor s in
  let a := 255 in
  let startPos := (startY * width + startX) * 4 in
  let startR := rd pixels startPos in
  let startG := rd pixels (startPos + 1) in
  let startB := rd pixels (startPos + 2) in
  let startA := rd pixels (startPos + 3) in
  if strict_eq startR (Some r) && strict_eq startG (Some g)
     && strict_eq startB (Some b) && strict_eq startA (Some a)
  then Ok s
  else
    match fillLoop width height maskPixels startR startG startB startA
                   r g b a (fillFuel width height) [(startX, startY)] pixels with
    | None => Diverge
    | Some pixels' =>
        Ok (with_canvases
              (putImageData (mkImageData width height pixels') canvas)
              (maskCanvas s) s)
    end.

(** ** Pointer handlers *)

Record PointerEvent := mkPointerEvent {
  clientPos : Q * Q;       (* [getPointerPos] *)
  canvasPos : Z * Z        (* [Math.floor] of [getCanvasCoordinates] *)
}.

Definition with_drag (dragging : bool) (start : Q * Q) (s : Session) : Session :=
  mkSession (drawingCanvas s) (maskCanvas s) (history s) (historyStep s)
            (mode s) (brushColor s) (pan s) (zoom s) dragging start
            (isDrawing s) (hasInteracted s).

Definition with_drawing_flags (d i : bool) (s : Session) : Session :=
  mkSession (drawingCanvas s) (maskCanvas s) (history s) (historyStep s)
            (mode s) (brushColor s) (pan s) (zoom s) (isDragging s)
            (dragStart s) d i.

Definition setMode (m : ToolMode) (s : Session) : Session :=
  mkSession (drawingCanvas s) (maskCanvas s) (history s) (historyStep s)
            m (brushColor s) (pan s) (zoom s) (isDragging s)
            (dragStart s) (isDrawing s) (hasInteracted s).

Definition setBrushColor (c : Z * Z * Z) (s : Session) : Session :=
  mkSession (drawingCanvas s) (maskCanvas s) (history s) (historyStep s)
            (mode s) c (pan s) (zoom s) (isDragging s)
            (dragStart s) (isDrawing s) (hasInteracted s).

Definition with_pan (p : Q * Q) (s : Session) : Session :=
  mkSession (drawingCanvas s) (maskCanvas s) (history s) (historyStep s)
            (mode s) (brushColor s) p (zoom s) (isDragging s)
            (dragStart s) (isDrawing s) (hasInteracted s).

(** [ctx.lineTo]/[ctx.stroke] and the like change the pixels of a layer,
    never its size. *)
Definition repaint (dd md : list Z) (s : Session) : Session :=
  with_canvases
    (mkImageData (width (drawingCanvas s)) (height (drawingCanvas s)) dd)
    (mkImageData (width (maskCanvas s)) (height (maskCanvas s)) md) s.

Section Handlers.
(** [draw] (lines 517-548) strokes a path with the browser's rasteriser
    on the layer the tool selects; the pixels it leaves in the draw and
    mask layers are a parameter. *)
Variable draw : Session -> PointerEvent -> list Z * list Z.

Definition handleMouseDown (s : Session) (e : PointerEvent) : result Session :=
  match mode s with
  | move =>
      Ok (with_drag true
            ((fst (clientPos e) - fst (pan s))%Q,
             (snd (clientPos e) - snd (pan s))%Q) s)
  | bucket =>
      s1 ← handleBucketFill s (fst (canvasPos e)) (snd (canvasPos e));
      saveHistory s1
  | _ =>
      Ok (repaint (fst (draw s e)) (snd (draw s e))
            (with_drawing_flags true true s))
  end.

Definition handleMouseMove (s : Session) (e : PointerEvent) : Session :=
  match mode s with
  | move =>
      if isDragging s
      then with_pan ((fst (clientPos e) - fst (dragStart s))%Q,
                     (snd (clientPos e) - snd (dragStart s))%Q) s
      else s
  | bucket => s
  | _ =>
      if isDrawing s
      then repaint (fst (draw s e)) (snd (draw s e)) s
      else s
  end.

Definition handleMouseUp (s : Session) : result Session :=
  s1 ← (if isDrawing s && hasInteracted s then saveHistory s else Ok s);
  Ok (with_drag false (dragStart s1) (with_drawing_flags false false s1)).

(** One pointer-down, move..., pointer-up interaction. *)
Definition gesture (s : Session) (down : PointerEvent)
    (moves : list PointerEvent) : result Session :=
  s1 ← handleMouseDown s down;
  handleMouseUp (foldl handleMouseMove s1 moves).
End Handlers.

(** [handleImageLoad]: both canvases take the image's natural size (which
    resets their bitmaps), then the blank state is saved. *)
Definition handleImageLoad (naturalWidth naturalHeight : Z) (s : Session)
  : result Session :=
  let blank := mkImageData naturalWidth naturalHeight
                 (transparent naturalWidth naturalHeight) in
  saveHistory (with_canvases blank blank s).

(** State of a freshly opened modal: default 300 by 150 canvases, empty
    history, cursor at -1, move tool, colour #ff0055. *)
Definition initialSession : Session :=
  mkSession (mkImageData 300 150 (transparent 300 150))
            (mkImageData 300 150 (transparent 300 150))
            [] (-1) move (255, 0, 85) (0, 0)%Q 1%Q false (0, 0)%Q false false.

(** ** Export *)

Inductive Layer := SourceImage | DrawLayer | MaskLayer.

(** Calls made on the 2D context of the output canvas. *)
Inductive CanvasOp :=
| FillRectBlack (x y w h : Q)
| Translate (x y : Q)
| Scale (x y : Q)
| DrawImage (l : Layer) (x y w h : Q).

Record Export := mkExport {
  outWidth : Z;
  outHeight : Z;
  ops : list CanvasOp
}.

Definition VIEWPORT_SIZE : Z := 500.

(** [img] is the natural size of [imgRef.current], [None] when the ref
    is empty; [hasDrawing] says whether [drawingCanvasRef.current] is set. *)
Definition handleSave (s : Session) (img : option (Z * Z)) (hasDrawing : bool)
  : option Export :=
  match img with
  | None => None
  | Some (naturalWidth, naturalHeight) =>
      let outputSize := 1024 in
      let o := inject_Z outputSize in
      let scaleFactor := (o / inject_Z VIEWPORT_SIZE)%Q in
      let aspect := (inject_Z naturalWidth / inject_Z naturalHeight)%Q in
      let drawWidth := (o * aspect)%Q in
      let drawHeight := o in
      Some (mkExport outputSize outputSize
        ([ FillRectBlack 0 0 o o;
           Translate (o / 2) (o / 2);
           Translate (fst (pan s) * scaleFactor) (snd (pan s) * scaleFactor);
           Scale (zoom s) (zoom s);
           DrawImage SourceImage (- drawWidth / 2) (- drawHeight / 2)
                     drawWidth drawHeight ]
         ++ (if hasDrawing
             then [DrawImage DrawLayer (- drawWidth / 2) (- drawHeight / 2)
                             drawWidth drawHeight]
             else [])))%Q
  end.

(** * Verification *)

(** ** Typed-array facts *)

Lemma strict_eq_spec x y : strict_eq x y = true <-> x = y.
Proof.
  destruct x as [u|], y as [v|]; simpl; split; try congruence; try done.
  - intros H. apply Z.eqb_eq in H. by subst.
  - intros [= ->]. apply Z.eqb_refl.
Qed.

Lemma clamp8_byte v : 0 <= v <= 255 -> clamp8 v = v.
Proof. unfold clamp8. lia. Qed.

Lemma rd_Some (a : list Z) i v : rd a i = Some v -> 0 <= i < Z.of_nat (length a).
Proof.
  unfold rd. destruct (Z.ltb_spec i 0); [done|].
  intros H1. apply lookup_lt_Some in H1. lia.
Qed.

Lemma rd_in_range (a : list Z) i :
  0 <= i < Z.of_nat (length a) -> is_Some (rd a i).
Proof.
  intros H. unfold rd. destruct (Z.ltb_spec i 0); [lia|].
  apply lookup_lt_is_Some. lia.
Qed.

Lemma length_wr a i v : length (wr a i v) = length a.
Proof. unfold wr. destruct (i <? 0); [done|]. apply length_insert. Qed.

Lemma rd_wr_eq a i v :
  0 <= i < Z.of_nat (length a) -> rd (wr a i v) i = Some (clamp8 v).
Proof.
  intros H. unfold rd, wr. destruct (Z.ltb_spec i 0); [lia|].
  apply list_lookup_insert_eq. lia.
Qed.

Lemma rd_wr_ne a i j v : i <> j -> rd (wr a i v) j = rd a j.
Proof.
  intros H. unfold rd, wr.
  destruct (Z.ltb_spec j 0); [done|]. destruct (Z.ltb_spec i 0); [done|].
  apply list_lookup_insert_ne. lia.
Qed.

Lemma rd_replicate n v i :
  0 <= i < Z.of_nat n -> rd (replicate n v) i = Some v.
Proof.
  intros H. unfold rd. destruct (Z.ltb_spec i 0); [lia|].
  apply lookup_replicate_2. lia.
Qed.

(** ** Well-formed bitmaps *)

Definition wf_canvas (c : ImageData) : Prop :=
  0 < width c /\ 0 < height c /\
  length (data c) = Z.to_nat (4 * width c * height c).

Lemma length_transparent w h : length (transparent w h) = Z.to_nat (4 * w * h).
Proof. apply length_replicate. Qed.

Lemma length_blit src w base : length (blit src w base) = length base.
Proof. apply length_imap. Qed.

(** A transfer between arrays of one size is a plain copy. *)
Lemma blit_same src w base :
  0 < w -> width src = w ->
  length (data src) = Z.to_nat (4 * w * height src) ->
  length base = length (data src) ->
  blit src w base = data src.
Proof.
  intros Hw Hsw Hlen Hbase. apply list_eq. intros i.
  unfold blit. rewrite list_lookup_imap.
  destruct (decide (i < length base)%nat) as [Hi|Hi].
  - destruct (lookup_lt_is_Some_2 base i Hi) as [old Hold].
    destruct (lookup_lt_is_Some_2 (data src) i ltac:(lia)) as [v Hv].
    rewrite Hold, Hv. simpl. f_equal.
    set (p := Z.of_nat i / 4).
    assert (Hi4 : Z.of_nat i = 4 * p + Z.of_nat i mod 4)
      by (subst p; apply Z.div_mod; lia).
    assert (Hm4 : 0 <= Z.of_nat i mod 4 < 4) by (apply Z.mod_pos_bound; lia).
    assert (Hp : p = w * (p / w) + p mod w) by (apply Z.div_mod; lia).
    assert (Hpm : 0 <= p mod w < w) by (apply Z.mod_pos_bound; lia).
    assert (Hp0 : 0 <= p) by (subst p; apply Z.div_pos; lia).
    assert (Hq0 : 0 <= p / w) by (apply Z.div_pos; lia).
    assert (Hlt : Z.of_nat i < 4 * w * height src) by lia.
    assert (Hh : 0 < height src) by nia.
    assert (Hph : p / w < height src).
    { apply Z.div_lt_upper_bound; [lia|]. nia. }
    rewrite Hsw.
    destruct (Z.ltb_spec (p mod w) w); [|lia].
    destruct (Z.ltb_spec (p / w) (height src)); [|lia]. simpl.
    replace ((p / w * w + p mod w) * 4 + Z.of_nat i mod 4) with (Z.of_nat i)
      by lia.
    unfold rd. destruct (Z.ltb_spec (Z.of_nat i) 0); [lia|].
    rewrite Nat2Z.id, Hv. done.
  - rewrite (lookup_ge_None_2 base) by lia.
    rewrite (lookup_ge_None_2 (data src)) by lia. done.
Qed.

Lemma getImageData_wf c :
  wf_canvas c -> getImageData c (width c) (height c) = Ok c.
Proof.
  intros (Hw & Hh & Hlen). unfold getImageData.
  destruct (Z.eqb_spec (width c) 0); [lia|].
  destruct (Z.eqb_spec (height c) 0); [lia|]. simpl.
  rewrite blit_same; [by destruct c| lia | done | done |].
  by rewrite length_transparent.
Qed.

Lemma getImageData_same_size c w h :
  wf_canvas c -> width c = w -> height c = h -> getImageData c w h = Ok c.
Proof. intros H <- <-. by apply getImageData_wf. Qed.

Lemma putImageData_wf img c :
  wf_canvas img -> wf_canvas c ->
  width img = width c -> height img = height c ->
  putImageData img c = img.
Proof.
  intros (Hw & Hh & Hlen) (Hw' & Hh' & Hlen') Ew Eh. unfold putImageData.
  rewrite blit_same; [destruct img; simpl in *; congruence | lia | done | |].
  - rewrite Hlen. by rewrite Ew.
  - rewrite Hlen, Hlen'. by rewrite Ew, Eh.
Qed.

Lemma clearCanvas_wf c : wf_canvas c -> wf_canvas (clearCanvas c).
Proof.
  intros (Hw & Hh & _). unfold clearCanvas, wf_canvas; simpl.
  by rewrite length_transparent.
Qed.

(** ** Pixels of a flat array *)

Definition in_bounds (w h x y : Z) : Prop := 0 <= x < w /\ 0 <= y < h.

(** Index of the red channel of pixel [(x, y)] in a [w]-wide array. *)
Definition offset (w x y : Z) : Z := (y * w + x) * 4.

Definition Pixel : Type := option Z * option Z * option Z * option Z.

Definition getPixel (px : list Z) (p : Z) : Pixel :=
  (rd px p, rd px (p + 1), rd px (p + 2), rd px (p + 3)).

Definition setPixel (px : list Z) (p r g b a : Z) : list Z :=
  wr (wr (wr (wr px p r) (p + 1) g) (p + 2) b) (p + 3) a.

Definition rgba (r g b a : Z) : Pixel := (Some r, Some g, Some b, Some a).

Definition pixelAt (c : ImageData) (x y : Z) : Pixel :=
  getPixel (data c) (offset (width c) x y).

Definition alphaAt (c : ImageData) (x y : Z) : option Z :=
  rd (data c) (offset (width c) x y + 3).

Definition neighbours (x y : Z) : list (Z * Z) :=
  [(x, y - 1); (x, y + 1); (x - 1, y); (x + 1, y)].

Lemma offset_range w h x y :
  in_bounds w h x y -> 0 <= offset w x y /\ offset w x y + 3 < 4 * w * h.
Proof. unfold in_bounds, offset. intros [Hx Hy]. split; nia. Qed.

Lemma offset_apart w h x y x' y' :
  in_bounds w h x y -> in_bounds w h x' y' -> (x, y) <> (x', y') ->
  offset w x y + 3 < offset w x' y' \/ offset w x' y' + 3 < offset w x y.
Proof.
  unfold in_bounds, offset. intros [Hx Hy] [Hx' Hy'] Hne.
  destruct (Z.lt_trichotomy y y') as [Hlt | [-> | Hlt]].
  - left. nia.
  - destruct (Z.lt_trichotomy x x') as [Hlt | [-> | Hlt]];
      [left; lia | done | right; lia].
  - right. nia.
Qed.

Lemma length_setPixel px p r g b a : length (setPixel px p r g b a) = length px.
Proof. unfold setPixel. by rewrite !length_wr. Qed.

Lemma rd_setPixel_other px p r g b a i :
  i < p \/ p + 3 < i -> rd (setPixel px p r g b a) i = rd px i.
Proof. intros H. unfold setPixel. rewrite !rd_wr_ne by lia. done. Qed.

Lemma getPixel_setPixel_other px p r g b a q :
  q + 3 < p \/ p + 3 < q ->
  getPixel (setPixel px p r g b a) q = getPixel px q.
Proof.
  intros H. unfold getPixel. by rewrite !rd_setPixel_other by lia.
Qed.

Lemma getPixel_setPixel_same px p r g b a :
  0 <= p -> p + 3 < Z.of_nat (length px) ->
  0 <= r <= 255 -> 0 <= g <= 255 -> 0 <= b <= 255 -> 0 <= a <= 255 ->
  getPixel (setPixel px p r g b a) p = rgba r g b a.
Proof.
  intros Hp Hlen Hr Hg Hb Ha. unfold getPixel, setPixel, rgba.
  rewrite (rd_wr_ne _ (p + 3) p), (rd_wr_ne _ (p + 2) p),
    (rd_wr_ne _ (p + 1) p), rd_wr_eq by lia.
  rewrite (rd_wr_ne _ (p + 3) (p + 1)), (rd_wr_ne _ (p + 2) (p + 1)),
    rd_wr_eq by (rewrite ?length_wr; lia).
  rewrite (rd_wr_ne _ (p + 3) (p + 2)), rd_wr_eq by (rewrite ?length_wr; lia).
  rewrite rd_wr_eq by (rewrite ?length_wr; lia).
  by rewrite !clamp8_byte.
Qed.

(** ** Counting over an initial segment *)

Fixpoint count_upto (f : nat -> bool) (n : nat) : nat :=
  match n with
  | O => O
  | S n' => ((if f n' then 1 else 0) + count_upto f n')%nat
  end.

Lemma count_upto_le f n : (count_upto f n <= n)%nat.
Proof. induction n as [|n IH]; simpl; [lia|]. destruct (f n); lia. Qed.

Lemma count_upto_ext f g n :
  (forall i, (i < n)%nat -> f i = g i) -> count_upto f n = count_upto g n.
Proof.
  induction n as [|n IH]; intros H; simpl; [done|].
  rewrite (H n) by lia. rewrite IH; [done|]. intros i Hi. apply H. lia.
Qed.

Lemma count_upto_flip f g n k :
  (k < n)%nat -> f k = true -> g k = false ->
  (forall i, i <> k -> f i = g i) ->
  count_upto f n = S (count_upto g n).
Proof.
  induction n as [|n IH]; intros Hk Hf Hg Hoth; simpl; [lia|].
  destruct (decide (k = n)) as [->|Hne].
  - rewrite Hf, Hg. simpl. f_equal. apply count_upto_ext.
    intros i Hi. apply Hoth. lia.
  - rewrite (Hoth n) by done. rewrite IH by (done || lia). lia.
Qed.

(** ** The fill loop *)

Section FillTheory.
Variables (w h : Z) (maskPixels : list Z).
Variables (sr sg sb sa : option Z) (r g b a : Z).

Abbreviation step := (fillStep w h maskPixels sr sg sb sa r g b a).
Abbreviation loop := (fillLoop w h maskPixels sr sg sb sa r g b a).

(** The mask test of the loop at pixel [(x, y)]. *)
Definition wall (x y : Z) : bool := js_gt (rd maskPixels (offset w x y + 3)) 10.

(** The three tests that lead to the store: inside the buffer, not a
    wall, same colour as the seed had. *)
Definition fillcond (px : list Z) (x y : Z) : Prop :=
  in_bounds w h x y /\ wall x y = false /\
  getPixel px (offset w x y) = (sr, sg, sb, sa).

Lemma fillStep_cases cx cy stack px :
  (~ fillcond px cx cy /\ step cx cy stack px = (stack, px)) \/
  (fillcond px cx cy /\
   step cx cy stack px =
     (neighbours cx cy ++ stack, setPixel px (offset w cx cy) r g b a)).
Proof.
  unfold fillStep, fillcond, in_bounds, wall.
  change ((cy * w + cx) * 4) with (offset w cx cy).
  destruct (Z.ltb_spec cx 0); simpl; [left; split; [lia|done]|].
  destruct (Z.geb_spec cx w); simpl; [left; split; [lia|done]|].
  destruct (Z.ltb_spec cy 0); simpl; [left; split; [lia|done]|].
  destruct (Z.geb_spec cy h); simpl; [left; split; [lia|done]|].
  destruct (js_gt _ 10); [left; split; [intros (_ & ? & _); done|done]|].
  unfold getPixel.
  destruct (strict_eq (rd px (offset w cx cy)) sr) eqn:E1; simpl;
    [apply strict_eq_spec in E1
    |left; split; [|done]; intros (_ & _ & [= Q1 Q2 Q3 Q4]);
     apply strict_eq_spec in Q1; congruence].
  destruct (strict_eq (rd px (offset w cx cy + 1)) sg) eqn:E2; simpl;
    [apply strict_eq_spec in E2
    |left; split; [|done]; intros (_ & _ & [= Q1 Q2 Q3 Q4]);
     apply strict_eq_spec in Q2; congruence].
  destruct (strict_eq (rd px (offset w cx cy + 2)) sb) eqn:E3; simpl;
    [apply strict_eq_spec in E3
    |left; split; [|done]; intros (_ & _ & [= Q1 Q2 Q3 Q4]);
     apply strict_eq_spec in Q3; congruence].
  destruct (strict_eq (rd px (offset w cx cy + 3)) sa) eqn:E4; simpl;
    [apply strict_eq_spec in E4
    |left; split; [|done]; intros (_ & _ & [= Q1 Q2 Q3 Q4]);
     apply strict_eq_spec in Q4; congruence].
  right. repeat split; try lia. congruence.
Qed.

(** Invariants of the loop are invariants of its iterations. *)
Lemma loop_invariant (I : list (Z * Z) -> list Z -> Prop) :
  (forall cx cy stack px,
      I ((cx, cy) :: stack) px ->
      I (step cx cy stack px).1 (step cx cy stack px).2) ->
  forall fuel stack px out,
    I stack px -> loop fuel stack px = Some out -> I [] out.
Proof.
  intros Hstep fuel. induction fuel as [|fuel IH]; intros stack px out HI; simpl.
  - done.
  - destruct stack as [|[cx cy] stack]; [by intros [= <-]|].
    specialize (Hstep cx cy stack px HI).
    destruct (step cx cy stack px) as [stack' px']. simpl in Hstep.
    by apply IH.
Qed.

Hypothesis Hw : 0 < w.
Hypothesis Hh : 0 < h.
Hypothesis Hr : 0 <= r <= 255.
Hypothesis Hg : 0 <= g <= 255.
Hypothesis Hb : 0 <= b <= 255.
Hypothesis Ha : 0 <= a <= 255.
(** The same-colour guard did not fire. *)
Hypothesis Hne : (sr, sg, sb, sa) <> rgba r g b a.

Definition buffer_len : nat := Z.to_nat (4 * w * h).

Lemma getPixel_fill_same px x y :
  length px = buffer_len -> in_bounds w h x y ->
  getPixel (setPixel px (offset w x y) r g b a) (offset w x y) = rgba r g b a.
Proof using Hr Hg Hb Ha.
  intros Hlen Hin. pose proof (offset_range _ _ _ _ Hin).
  apply getPixel_setPixel_same; try done; unfold buffer_len in *; lia.
Qed.

Lemma getPixel_fill_other px x y x' y' :
  in_bounds w h x y -> in_bounds w h x' y' -> (x, y) <> (x', y') ->
  getPixel (setPixel px (offset w x y) r g b a) (offset w x' y')
  = getPixel px (offset w x' y').
Proof.
  intros H1 H2 H3. apply getPixel_setPixel_other.
  destruct (offset_apart _ _ _ _ _ _ H1 H2 H3); lia.
Qed.

(** *** Termination *)

Definition matchesb (px : list Z) (n : nat) : bool :=
  bool_decide (getPixel px (4 * Z.of_nat n) = (sr, sg, sb, sa)).

(** Number of pixels that still have the seed's colour. *)
Definition remaining (px : list Z) : nat :=
  count_upto (matchesb px) (Z.to_nat (w * h)).

Lemma remaining_le px : (remaining px <= Z.to_nat (w * h))%nat.
Proof. apply count_upto_le. Qed.

Lemma remaining_fill px x y :
  length px = buffer_len -> fillcond px x y ->
  remaining px = S (remaining (setPixel px (offset w x y) r g b a)).
Proof using Hw Hh Hr Hg Hb Ha Hne.
  intros Hlen (Hin & _ & Hm). pose proof (offset_range _ _ _ _ Hin) as Hoff.
  assert (Hk : offset w x y = 4 * Z.of_nat (Z.to_nat (y * w + x))).
  { unfold offset, in_bounds in *. rewrite Z2Nat.id by nia. lia. }
  unfold remaining.
  apply (count_upto_flip _ _ _ (Z.to_nat (y * w + x))).
  - unfold in_bounds in Hin. apply Z2Nat.inj_lt; nia.
  - unfold matchesb. rewrite <- Hk. by apply bool_decide_eq_true.
  - unfold matchesb. rewrite <- Hk. apply bool_decide_eq_false.
    rewrite getPixel_fill_same by done. congruence.
  - intros i Hi. unfold matchesb. apply bool_decide_ext.
    rewrite getPixel_setPixel_other; [done|]. lia.
Qed.

Lemma step_measure cx cy stack px :
  length px = buffer_len ->
  length (step cx cy stack px).2 = buffer_len /\
  (length (step cx cy stack px).1 + 4 * remaining (step cx cy stack px).2
   <= length stack + 4 * remaining px)%nat.
Proof using Hw Hh Hr Hg Hb Ha Hne.
  intros Hlen.
  destruct (fillStep_cases cx cy stack px) as [[_ ->] | [Hc ->]]; simpl.
  - split; [done | lia].
  - rewrite length_setPixel. split; [done|].
    rewrite (remaining_fill px cx cy) by done. lia.
Qed.

(** The loop ends within [length stack + 4 * remaining px] iterations. *)
Lemma loop_total fuel : forall stack px,
  length px = buffer_len ->
  (length stack + 4 * remaining px < fuel)%nat ->
  is_Some (loop fuel stack px).
Proof using Hw Hh Hr Hg Hb Ha Hne.
  induction fuel as [|fuel IH]; intros stack px Hlen Hfuel; [lia|]. simpl.
  destruct stack as [|[cx cy] stack]; [by eexists|].
  destruct (step_measure cx cy stack px Hlen) as [Hlen' Hm].
  destruct (step cx cy stack px) as [stack' px']. simpl in *.
  apply IH; [done | lia].
Qed.

Lemma loop_total_seed x0 y0 px :
  length px = buffer_len -> is_Some (loop (fillFuel w h) [(x0, y0)] px).
Proof using Hw Hh Hr Hg Hb Ha Hne.
  intros Hlen. apply loop_total; [done|].
  pose proof (remaining_le px). unfold fillFuel. simpl length.
  assert (Z.to_nat (4 * w * h) = (4 * Z.to_nat (w * h))%nat) by nia.
  lia.
Qed.
End FillTheory.

(** *** What the loop computes *)

Section FillCorrect.
Variables (w h : Z) (maskPixels : list Z).
Variables (sr sg sb sa : option Z) (r g b a : Z).
Variables (px0 : list Z) (x0 y0 : Z).

Abbreviation loop' := (fillLoop w h maskPixels sr sg sb sa r g b a).
Abbreviation step' := (fillStep w h maskPixels sr sg sb sa r g b a).
Abbreviation cond' := (fillcond w h maskPixels sr sg sb sa).

Hypothesis Hw : 0 < w.
Hypothesis Hh : 0 < h.
Hypothesis Hr : 0 <= r <= 255.
Hypothesis Hg : 0 <= g <= 255.
Hypothesis Hb : 0 <= b <= 255.
Hypothesis Ha : 0 <= a <= 255.
Hypothesis Hne : (sr, sg, sb, sa) <> rgba r g b a.
Hypothesis Hlen0 : length px0 = buffer_len w h.

(** A pixel the fill may colour: it passes the three tests in the
    buffer as it was before the fill. *)
Definition fillable (x y : Z) : Prop := cond' px0 x y.

(** Pixels joined to the seed by a 4-connected path of fillable pixels. *)
Inductive connected : Z -> Z -> Prop :=
| conn_seed : fillable x0 y0 -> connected x0 y0
| conn_step x y x' y' :
    connected x y -> (x', y') ∈ neighbours x y -> fillable x' y' ->
    connected x' y'.

Lemma connected_fillable x y : connected x y -> fillable x y.
Proof. by intros []. Qed.

Definition filled (px : list Z) (x y : Z) : Prop :=
  connected x y /\ getPixel px (offset w x y) = rgba r g b a.

Record fill_inv (stack : list (Z * Z)) (px : list Z) : Prop := {
  inv_len : length px = buffer_len w h;
  inv_frame : forall x y, in_bounds w h x y ->
      getPixel px (offset w x y) = getPixel px0 (offset w x y) \/ filled px x y;
  inv_stack : forall x y, (x, y) ∈ stack ->
      (x, y) = (x0, y0) \/
      exists x' y', connected x' y' /\ (x, y) ∈ neighbours x' y';
  inv_seed : fillable x0 y0 -> filled px x0 y0 \/ (x0, y0) ∈ stack;
  inv_front : forall x y x' y',
      filled px x y -> (x', y') ∈ neighbours x y -> fillable x' y' ->
      filled px x' y' \/ (x', y') ∈ stack
}.

Lemma fill_inv_init : fill_inv [(x0, y0)] px0.
Proof using All.
  split.
  - done.
  - by left.
  - intros x y Hin. left. by apply list_elem_of_singleton in Hin.
  - right. by apply list_elem_of_singleton.
  - intros x y x' y' [Hc Hf]. apply connected_fillable in Hc.
    destruct Hc as (_ & _ & Hs). congruence.
Qed.

(** A popped pixel that passes the tests is fillable and connected. *)
Lemma popped_connected cx cy stack px :
  fill_inv ((cx, cy) :: stack) px -> cond' px cx cy -> connected cx cy.
Proof using All.
  intros HI (Hin & Hwall & Hm).
  assert (Hf : fillable cx cy).
  { split; [done|]. split; [done|].
    destruct (inv_frame _ _ HI cx cy Hin) as [<- | [_ Hc]]; [done|]. congruence. }
  destruct (inv_stack _ _ HI cx cy) as [[= -> ->] | (x' & y' & Hc & Hn)].
  - apply list_elem_of_here.
  - by apply conn_seed.
  - by apply (conn_step x' y').
Qed.

(** A popped fillable pixel that fails the tests was filled before. *)
Lemma popped_filled cx cy stack px :
  fill_inv ((cx, cy) :: stack) px -> fillable cx cy -> ~ cond' px cx cy ->
  filled px cx cy.
Proof.
  intros HI (Hin & Hwall & Hm) Hn.
  destruct (inv_frame _ _ HI cx cy Hin) as [E | Hf]; [|done].
  exfalso. apply Hn. split; [done|]. split; [done|]. congruence.
Qed.

Lemma filled_fill px cx cy x y :
  length px = buffer_len w h -> connected cx cy -> filled px x y ->
  filled (setPixel px (offset w cx cy) r g b a) x y.
Proof using All.
  intros Hlen Hc [Hxy Hcol]. split; [done|].
  destruct (decide ((cx, cy) = (x, y))) as [[= <- <-] | Hd].
  - apply (getPixel_fill_same w h); try done.
    by destruct (connected_fillable _ _ Hc).
  - rewrite (getPixel_fill_other w h); try done.
    + by destruct (connected_fillable _ _ Hc).
    + by destruct (connected_fillable _ _ Hxy).
Qed.

Lemma fill_inv_step cx cy stack px :
  fill_inv ((cx, cy) :: stack) px ->
  fill_inv (step' cx cy stack px).1 (step' cx cy stack px).2.
Proof using All.
  intros HI.
  destruct (fillStep_cases w h maskPixels sr sg sb sa r g b a cx cy stack px)
    as [[Hn ->] | [Hc ->]]; cbn [fst snd].
  - (* the pixel is skipped *)
    split.
    + apply (inv_len _ _ HI).
    + apply (inv_frame _ _ HI).
    + intros x y Hin. apply (inv_stack _ _ HI). by apply list_elem_of_further.
    + intros Hf. destruct (inv_seed _ _ HI Hf) as [?|Hin]; [by left|].
      apply elem_of_cons in Hin as [[= <- <-] | Hin]; [|by right].
      left. by apply (popped_filled x0 y0 stack).
    + intros x y x' y' Hfl Hnb Hf.
      destruct (inv_front _ _ HI x y x' y' Hfl Hnb Hf) as [?|Hin]; [by left|].
      apply elem_of_cons in Hin as [[= -> ->] | Hin]; [|by right].
      left. by apply (popped_filled cx cy stack).
  - (* the pixel is filled *)
    pose proof (popped_connected _ _ _ _ HI Hc) as Hconn.
    pose proof (inv_len _ _ HI) as Hlen.
    assert (Hin : in_bounds w h cx cy) by (by destruct Hc).
    assert (Hnow : filled (setPixel px (offset w cx cy) r g b a) cx cy).
    { split; [done|]. by apply (getPixel_fill_same w h). }
    split.
    + by rewrite length_setPixel.
    + intros x y Hxy.
      destruct (decide ((cx, cy) = (x, y))) as [[= <- <-] | Hd]; [by right|].
      rewrite (getPixel_fill_other w h) by done.
      destruct (inv_frame _ _ HI x y Hxy) as [?|Hfl]; [by left|].
      right. by apply filled_fill.
    + intros x y Hxy. apply elem_of_app in Hxy as [Hxy | Hxy].
      * right. by exists cx, cy.
      * apply (inv_stack _ _ HI). by apply list_elem_of_further.
    + intros Hf. destruct (inv_seed _ _ HI Hf) as [Hfl|Hxy].
      * left. by apply filled_fill.
      * apply elem_of_cons in Hxy as [[= <- <-] | Hxy]; [by left|].
        right. apply elem_of_app. by right.
    + intros x y x' y' [Hcxy Hcol] Hnb Hf.
      destruct (decide ((cx, cy) = (x, y))) as [[= <- <-] | Hd].
      { right. apply elem_of_app. by left. }
      assert (Hold : filled px x y).
      { split; [done|]. rewrite <- Hcol. symmetry.
        apply (getPixel_fill_other w h); try done.
        by destruct (connected_fillable _ _ Hcxy). }
      destruct (inv_front _ _ HI x y x' y' Hold Hnb Hf) as [Hfl|Hxy].
      * left. by apply filled_fill.
      * apply elem_of_cons in Hxy as [[= -> ->] | Hxy]; [by left|].
        right. apply elem_of_app. by right.
Qed.

(** The loop colours exactly the pixels connected to the seed and leaves
    every other pixel of the buffer as it was. *)
Lemma fillLoop_correct fuel out :
  loop' fuel [(x0, y0)] px0 = Some out ->
  length out = buffer_len w h /\
  forall x y, in_bounds w h x y ->
    (connected x y -> getPixel out (offset w x y) = rgba r g b a) /\
    (~ connected x y ->
     getPixel out (offset w x y) = getPixel px0 (offset w x y)).
Proof using All.
  intros Hrun.
  assert (HI : fill_inv [] out).
  { apply (loop_invariant w h maskPixels sr sg sb sa r g b a fill_inv
             fill_inv_step fuel [(x0, y0)] px0 out fill_inv_init Hrun). }
  assert (Hall : forall x y, connected x y -> filled out x y).
  { intros x y Hc. induction Hc as [Hf | x y x' y' Hc IH Hnb Hf].
    - destruct (inv_seed _ _ HI Hf) as [?|Hin]; [done|].
      by apply elem_of_nil in Hin.
    - destruct (inv_front _ _ HI x y x' y' IH Hnb Hf) as [?|Hin]; [done|].
      by apply elem_of_nil in Hin. }
  split; [apply (inv_len _ _ HI)|].
  intros x y Hin. split.
  - intros Hc. by destruct (Hall x y Hc).
  - intros Hn. by destruct (inv_frame _ _ HI x y Hin) as [?|[? _]].
Qed.
End FillCorrect.

(** ** Sessions *)

Definition byte_color (c : Z * Z * Z) : Prop :=
  let '(r, g, b) := c in
  0 <= r <= 255 /\ 0 <= g <= 255 /\ 0 <= b <= 255.

(** Both layers are allocated with one size ([handleImageLoad]) and the
    brush colour is a parsed [#rrggbb]. *)
Definition wf_session (s : Session) : Prop :=
  wf_canvas (drawingCanvas s) /\ wf_canvas (maskCanvas s) /\
  width (maskCanvas s) = width (drawingCanvas s) /\
  height (maskCanvas s) = height (drawingCanvas s) /\
  byte_color (brushColor s).

(** The colour the bucket writes: the brush colour, fully opaque. *)
Definition fillColor (s : Session) : Pixel :=
  let '(r, g, b) := brushColor s in rgba r g b 255.

(** The fill loop as [handleBucketFill] runs it on session [s]. *)
Definition bucketLoop (s : Session) (x0 y0 : Z) : option (list Z) :=
  let d := drawingCanvas s in
  let p := offset (width d) x0 y0 in
  let '(r, g, b) := brushColor s in
  fillLoop (width d) (height d) (data (maskCanvas s))
           (rd (data d) p) (rd (data d) (p + 1)) (rd (data d) (p + 2))
           (rd (data d) (p + 3)) r g b 255
           (fillFuel (width d) (height d)) [(x0, y0)] (data d).

Lemma with_canvases_id s : with_canvases (drawingCanvas s) (maskCanvas s) s = s.
Proof. by destruct s. Qed.

Lemma guard_spec (p : Pixel) r g b a :
  (strict_eq p.1.1.1 (Some r) && strict_eq p.1.1.2 (Some g)
   && strict_eq p.1.2 (Some b) && strict_eq p.2 (Some a)) = true
  <-> p = rgba r g b a.
Proof.
  destruct p as [[[pr pg] pb] pa]. simpl. unfold rgba.
  rewrite !andb_true_iff, !strict_eq_spec. split.
  - intros [[[-> ->] ->] ->]. done.
  - intros [= -> -> -> ->]. done.
Qed.

Lemma loop_length w h maskPixels sr sg sb sa r g b a fuel stack px out :
  0 < w -> 0 < h ->
  0 <= r <= 255 -> 0 <= g <= 255 -> 0 <= b <= 255 -> 0 <= a <= 255 ->
  (sr, sg, sb, sa) <> rgba r g b a ->
  length px = buffer_len w h ->
  fillLoop w h maskPixels sr sg sb sa r g b a fuel stack px = Some out ->
  length out = buffer_len w h.
Proof.
  intros Hw Hh Hr Hg Hb Ha Hne Hlen Hrun.
  apply (loop_invariant w h maskPixels sr sg sb sa r g b a
           (fun _ px => length px = buffer_len w h)) in Hrun; [done| |done].
  intros cx cy st px' Hpx. by apply step_measure.
Qed.

(** What a bucket fill does on a well-formed session: either the
    same-colour guard returns at once, or the loop runs to completion
    and its buffer becomes the draw layer. *)
Lemma handleBucketFill_run s x0 y0 :
  wf_session s ->
  (pixelAt (drawingCanvas s) x0 y0 = fillColor s /\
   handleBucketFill s x0 y0 = Ok s) \/
  (pixelAt (drawingCanvas s) x0 y0 <> fillColor s /\
   exists out,
     bucketLoop s x0 y0 = Some out /\
     length out = length (data (drawingCanvas s)) /\
     handleBucketFill s x0 y0 =
       Ok (with_canvases
             (mkImageData (width (drawingCanvas s)) (height (drawingCanvas s)) out)
             (maskCanvas s) s)).
Proof.
  intros (Hd & Hm & Ew & Eh & Hc).
  unfold handleBucketFill, bucketLoop, fillColor, pixelAt.
  rewrite (getImageData_wf _ Hd). cbn [mbind result_bind].
  rewrite (getImageData_same_size _ _ _ Hm Ew Eh). cbn [mbind result_bind].
  destruct (brushColor s) as [[r g] b]. simpl in Hc. destruct Hc as (Hr & Hg & Hb).
  change ((y0 * width (drawingCanvas s) + x0) * 4)
    with (offset (width (drawingCanvas s)) x0 y0).
  set (p := offset (width (drawingCanvas s)) x0 y0).
  pose proof (guard_spec (getPixel (data (drawingCanvas s)) p) r g b 255) as HG.
  cbn [fst snd getPixel] in HG.
  destruct (strict_eq (rd (data (drawingCanvas s)) p) (Some r) &&
            strict_eq (rd (data (drawingCanvas s)) (p + 1)) (Some g) &&
            strict_eq (rd (data (drawingCanvas s)) (p + 2)) (Some b) &&
            strict_eq (rd (data (drawingCanvas s)) (p + 3)) (Some 255)) eqn:E.
  - left. split; [by apply HG | done].
  - right.
    assert (Hne : getPixel (data (drawingCanvas s)) p <> rgba r g b 255).
    { intros Heq. apply HG in Heq. congruence. }
    split; [done|].
    destruct Hd as (Hw & Hh & Hlen).
    destruct (loop_total_seed (width (drawingCanvas s)) (height (drawingCanvas s))
                (data (maskCanvas s)) _ _ _ _ r g b 255 Hw Hh Hr Hg Hb
                ltac:(lia) Hne x0 y0 (data (drawingCanvas s)) Hlen) as [out Hout].
    exists out. split; [done|].
    assert (Hlo : length out
                  = buffer_len (width (drawingCanvas s)) (height (drawingCanvas s))).
    { eapply loop_length; [| | | | | | | |exact Hout]; done || lia. }
    split; [by rewrite Hlo, Hlen|].
    rewrite Hout. f_equal. f_equal.
    apply putImageData_wf; [|done..].
    repeat split; done.
Qed.

(** On a well-formed session the fill always returns: the iterations
    granted by [fillFuel] are enough and nothing throws. *)
Lemma handleBucketFill_total s x0 y0 :
  wf_session s -> exists s', handleBucketFill s x0 y0 = Ok s'.
Proof.
  intros Hwf.
  destruct (handleBucketFill_run s x0 y0 Hwf) as [[_ E] | (_ & out & _ & _ & E)];
    eauto.
Qed.

(** Pixel [(x, y)] passes the loop's three tests in session [s] when the
    fill started at [(x0, y0)]. *)
Definition canFill (s : Session) (x0 y0 x y : Z) : Prop :=
  in_bounds (width (drawingCanvas s)) (height (drawingCanvas s)) x y /\
  js_gt (alphaAt (maskCanvas s) x y) 10 = false /\
  pixelAt (drawingCanvas s) x y = pixelAt (drawingCanvas s) x0 y0.

(** The 4-connected region of the seed. *)
Inductive region (s : Session) (x0 y0 : Z) : Z -> Z -> Prop :=
| region_seed : canFill s x0 y0 x0 y0 -> region s x0 y0 x0 y0
| region_step x y x' y' :
    region s x0 y0 x y -> (x', y') ∈ neighbours x y ->
    canFill s x0 y0 x' y' -> region s x0 y0 x' y'.

Lemma region_canFill s x0 y0 x y : region s x0 y0 x y -> canFill s x0 y0 x y.
Proof. by intros []. Qed.

Section SessionFill.
Variables (s : Session) (x0 y0 : Z).
Hypothesis Hwf : wf_session s.

Abbreviation d := (drawingCanvas s).
Abbreviation seedOff := (offset (width d) x0 y0).

Lemma canFill_fillable x y :
  canFill s x0 y0 x y <->
  fillable (width d) (height d) (data (maskCanvas s))
           (rd (data d) seedOff) (rd (data d) (seedOff + 1))
           (rd (data d) (seedOff + 2)) (rd (data d) (seedOff + 3))
           (data d) x y.
Proof using Hwf.
  destruct Hwf as (_ & _ & Ew & _ & _).
  unfold canFill, fillable, fillcond, wall, alphaAt, pixelAt. by rewrite Ew.
Qed.

Lemma region_connected x y :
  region s x0 y0 x y <->
  connected (width d) (height d) (data (maskCanvas s))
            (rd (data d) seedOff) (rd (data d) (seedOff + 1))
            (rd (data d) (seedOff + 2)) (rd (data d) (seedOff + 3))
            (data d) x0 y0 x y.
Proof using Hwf.
  split.
  - induction 1 as [Hf | x y x' y' _ IH Hn Hf].
    + apply conn_seed. by apply canFill_fillable.
    + apply (conn_step _ _ _ _ _ _ _ _ _ _ x y); [done..|].
      by apply canFill_fillable.
  - induction 1 as [Hf | x y x' y' _ IH Hn Hf].
    + apply region_seed. by apply canFill_fillable.
    + apply (region_step _ _ _ x y); [done..|]. by apply canFill_fillable.
Qed.

(** With the guard not firing, the fill returns, touches the draw layer
    only, colours the region of the seed and nothing else. *)
Lemma handleBucketFill_region :
  pixelAt d x0 y0 <> fillColor s ->
  exists out,
    handleBucketFill s x0 y0
      = Ok (with_canvases (mkImageData (width d) (height d) out)
                          (maskCanvas s) s) /\
    length out = length (data d) /\
    forall x y, in_bounds (width d) (height d) x y ->
      (region s x0 y0 x y ->
       getPixel out (offset (width d) x y) = fillColor s) /\
      (~ region s x0 y0 x y ->
       getPixel out (offset (width d) x y) = pixelAt d x y).
Proof using Hwf.
  intros Hne.
  destruct (handleBucketFill_run s x0 y0 Hwf) as [[? _] | (_ & out & Hrun & Hlen & E)];
    [done|].
  exists out. split; [done|]. split; [done|].
  destruct Hwf as ((Hw & Hh & Hl) & _ & _ & _ & Hc).
  unfold bucketLoop in Hrun. unfold fillColor in *.
  destruct (brushColor s) as [[r g] b]. simpl in Hc. destruct Hc as (Hr & Hg & Hb).
  destruct (fillLoop_correct _ _ _ _ _ _ _ r g b 255 _ x0 y0 Hw Hh Hr Hg Hb
              ltac:(lia) Hne Hl _ _ Hrun) as [_ Hpix].
  intros x y Hin. rewrite region_connected. by apply Hpix.
Qed.

(** A seed that fails one of the three tests ends the fill at once. *)
Lemma handleBucketFill_seed_skipped :
  ~ canFill s x0 y0 x0 y0 -> handleBucketFill s x0 y0 = Ok s.
Proof using Hwf.
  intros Hn.
  destruct (handleBucketFill_run s x0 y0 Hwf)
    as [[_ E] | (_ & out & Hrun & Hlen & E)]; [done|].
  rewrite E. f_equal.
  assert (out = data d) as ->.
  { unfold bucketLoop in Hrun. destruct (brushColor s) as [[r g] b].
    unfold fillFuel in Hrun. cbn [fillLoop] in Hrun.
    rewrite canFill_fillable in Hn. unfold fillable in Hn.
    destruct (fillStep_cases (width d) (height d) (data (maskCanvas s))
                (rd (data d) seedOff) (rd (data d) (seedOff + 1))
                (rd (data d) (seedOff + 2)) (rd (data d) (seedOff + 3))
                r g b 255 x0 y0 [] (data d)) as [[_ Hs] | [Hc _]]; [|done].
    rewrite Hs in Hrun. by injection Hrun. }
  replace (mkImageData (width d) (height d) (data d)) with d by (by destruct d).
  apply with_canvases_id.
Qed.
End SessionFill.

(** ** History *)

(** The snapshot [saveHistory] takes of the two layers. *)
Definition snapOf (s : Session) : Snapshot :=
  mkSnapshot (drawingCanvas s) (maskCanvas s).

(** [if (newHistory.length > 20) newHistory.shift()]. *)
Definition evict (l : list Snapshot) : list Snapshot :=
  if Z.of_nat (length l) >? HISTORY_CAP then tail l else l.

(** The [n] most recent entries of a list. *)
Definition lastn {A} (n : nat) (l : list A) : list A := drop (length l - n) l.

Lemma saveHistory_wf s :
  wf_session s ->
  saveHistory s =
    Ok (with_history
          (evict (slice0 (history s) (historyStep s + 1) ++ [snapOf s]))
          (Z.of_nat (length (evict (slice0 (history s) (historyStep s + 1)
                                      ++ [snapOf s]))) - 1) s).
Proof.
  intros (Hd & Hm & Ew & Eh & _). unfold saveHistory.
  rewrite (getImageData_wf _ Hd). cbn [mbind result_bind].
  rewrite (getImageData_same_size _ _ _ Hm Ew Eh). cbn [mbind result_bind].
  done.
Qed.

Lemma slice0_take {A} (l : list A) (e : Z) :
  0 <= e -> slice0 l e = take (Z.to_nat e) l.
Proof. intros H. unfold slice0. destruct (Z.ltb_spec e 0); [lia|done]. Qed.

Lemma evict_lastn (l : list Snapshot) :
  (length l <= 21)%nat -> evict l = lastn 20 l.
Proof.
  intros H. unfold evict, lastn, HISTORY_CAP.
  destruct (Z.gtb_spec (Z.of_nat (length l)) 20).
  - replace (length l - 20)%nat with 1%nat by lia. by destruct l.
  - replace (length l - 20)%nat with 0%nat by lia. done.
Qed.

Lemma length_lastn {A} n (l : list A) : length (lastn n l) = (length l `min` n)%nat.
Proof. unfold lastn. rewrite length_drop. lia. Qed.

Lemma lastn_app_lastn {A} n (l k : list A) :
  lastn n (lastn n l ++ k) = lastn n (l ++ k).
Proof.
  unfold lastn. rewrite !length_app, length_drop.
  destruct (decide (length l <= n)%nat) as [Hle|Hgt].
  - replace (length l - n)%nat with 0%nat by lia. simpl.
    f_equal. lia.
  - replace (length l - (length l - n) + length k - n)%nat
      with (length k) by lia.
    replace (length l + length k - n)%nat
      with ((length l - n) + length k)%nat by lia.
    rewrite <- drop_drop. by rewrite (drop_app_le l k) by lia.
Qed.

Lemma last_lastn_snoc {A} n (l : list A) x :
  (0 < n)%nat -> last (lastn n (l ++ [x])) = Some x.
Proof.
  intros Hn. unfold lastn. rewrite length_app. simpl.
  rewrite drop_app_le by lia. apply last_snoc.
Qed.

(** Snapshots of a session are bitmaps of the size of its layers. *)
Definition snap_fits (s : Session) (p : Snapshot) : Prop :=
  wf_canvas (drawing p) /\ wf_canvas (mask p) /\
  width (drawing p) = width (drawingCanvas s) /\
  height (drawing p) = height (drawingCanvas s) /\
  width (mask p) = width (maskCanvas s) /\
  height (mask p) = height (maskCanvas s).

Record history_inv (s : Session) : Prop := {
  hi_wf : wf_session s;
  hi_low : -1 <= historyStep s;
  hi_high : historyStep s < Z.of_nat (length (history s));
  hi_cap : Z.of_nat (length (history s)) <= HISTORY_CAP;
  hi_fits : Forall (snap_fits s) (history s)
}.

(** Sessions reached from an empty history by layer edits, bucket
    fills, tool settings, snapshot pushes and undos. *)
Inductive reachable : Session -> Prop :=
| reach_fresh s :
    wf_session s -> history s = [] -> historyStep s = -1 -> reachable s
| reach_paint s dd md :
    reachable s ->
    length dd = length (data (drawingCanvas s)) ->
    length md = length (data (maskCanvas s)) ->
    reachable (repaint dd md s)
| reach_bucket s x y s' :
    reachable s -> handleBucketFill s x y = Ok s' -> reachable s'
| reach_mode s m : reachable s -> reachable (setMode m s)
| reach_color s c : reachable s -> byte_color c -> reachable (setBrushColor c s)
| reach_save s s' : reachable s -> saveHistory s = Ok s' -> reachable s'
| reach_undo s s' : reachable s -> handleUndo s = Ok s' -> reachable s'.

Lemma snap_fits_same s s' p :
  width (drawingCanvas s') = width (drawingCanvas s) ->
  height (drawingCanvas s') = height (drawingCanvas s) ->
  width (maskCanvas s') = width (maskCanvas s) ->
  height (maskCanvas s') = height (maskCanvas s) ->
  snap_fits s p -> snap_fits s' p.
Proof. unfold snap_fits. intros -> -> -> ->. done. Qed.

Lemma history_inv_layers s d m :
  history_inv s ->
  wf_canvas d -> wf_canvas m ->
  width d = width (drawingCanvas s) -> height d = height (drawingCanvas s) ->
  width m = width (maskCanvas s) -> height m = height (maskCanvas s) ->
  history_inv (with_canvases d m s).
Proof.
  intros [(Hd & Hm & Ew & Eh & Hc) Hl Hh Hcap Hf] Wd Wm E1 E2 E3 E4.
  split; simpl; try done.
  - split; [done|]. split; [done|]. simpl.
    split; [congruence|]. split; [congruence|done].
  - eapply Forall_impl; [exact Hf|]. intros p. by apply snap_fits_same.
Qed.

Lemma snap_fits_snapOf s : wf_session s -> snap_fits s (snapOf s).
Proof. intros (Hd & Hm & _). by repeat split; try apply Hd; try apply Hm. Qed.

Lemma history_inv_save s :
  history_inv s ->
  exists s', saveHistory s = Ok s' /\ history_inv s' /\
    history s' = lastn 20 (take (Z.to_nat (historyStep s + 1)) (history s)
                           ++ [snapOf s]) /\
    historyStep s' = Z.of_nat (length (history s')) - 1 /\
    drawingCanvas s' = drawingCanvas s /\ maskCanvas s' = maskCanvas s.
Proof.
  intros [Hwf Hl Hh Hcap Hf]. unfold HISTORY_CAP in Hcap.
  rewrite (saveHistory_wf s Hwf). rewrite slice0_take by lia.
  set (H := take (Z.to_nat (historyStep s + 1)) (history s) ++ [snapOf s]).
  assert (HlenH : length H = S (Z.to_nat (historyStep s + 1))).
  { subst H. rewrite length_app, length_take. simpl. lia. }
  rewrite evict_lastn by lia.
  exists (with_history (lastn 20 H) (Z.of_nat (length (lastn 20 H)) - 1) s).
  split; [done|]. split; [|done].
  split; simpl; try done.
  - rewrite length_lastn. lia.
  - rewrite length_lastn. lia.
  - rewrite length_lastn. unfold HISTORY_CAP. lia.
  - apply (Forall_impl (snap_fits s)); [|intros p; by apply snap_fits_same].
    unfold lastn. apply Forall_drop. subst H. apply Forall_app. split.
    + by apply Forall_take.
    + apply Forall_singleton. by apply snap_fits_snapOf.
Qed.

Lemma history_inv_undo s :
  history_inv s -> exists s', handleUndo s = Ok s' /\ history_inv s'.
Proof.
  intros HI. pose proof HI as [Hwf Hl Hh Hcap Hf]. unfold handleUndo.
  destruct (Z.gtb_spec (historyStep s) 0) as [Hpos|Hnp].
  - destruct (lookup_lt_is_Some_2 (history s) (Z.to_nat (historyStep s - 1)))
      as [p Hp]; [lia|].
    rewrite Hp. eexists. split; [done|].
    pose proof (proj1 (Forall_lookup _ _) Hf _ _ Hp) as (W1 & W2 & E1 & E2 & E3 & E4).
    destruct Hwf as (Hd & Hm & Ew & Eh & Hc).
    rewrite !putImageData_wf by done.
    assert (HI' : history_inv (with_canvases (drawing p) (mask p) s))
      by (by apply history_inv_layers).
    destruct HI' as [Hwf' _ _ _ Hf']. split; simpl; try done; lia.
  - destruct (Z.eqb_spec (historyStep s) 0) as [H0|Hn0].
    + eexists. split; [done|].
      destruct Hwf as (Hd & Hm & Ew & Eh & Hc).
      assert (HI' : history_inv (with_canvases (clearCanvas (drawingCanvas s))
                                   (clearCanvas (maskCanvas s)) s)).
      { apply history_inv_layers; try done; by apply clearCanvas_wf. }
      destruct HI' as [Hwf' _ _ _ Hf']. split; simpl; try done; lia.
    + by exists s.
Qed.

Lemma history_inv_bucket s x y s' :
  history_inv s -> handleBucketFill s x y = Ok s' -> history_inv s'.
Proof.
  intros HI Hrun. pose proof (hi_wf _ HI) as Hwf.
  destruct (handleBucketFill_run s x y Hwf)
    as [[_ E] | (_ & out & _ & Hlen & E)];
    rewrite E in Hrun; injection Hrun as <-; [done|].
  destruct Hwf as ((Hw & Hh & Hl) & Hm & Ew & Eh & _).
  apply history_inv_layers; try done.
  repeat split; try done. simpl. congruence.
Qed.

Lemma history_inv_repaint s dd md :
  history_inv s ->
  length dd = length (data (drawingCanvas s)) ->
  length md = length (data (maskCanvas s)) ->
  history_inv (repaint dd md s).
Proof.
  intros HI Hd Hm. pose proof (hi_wf _ HI) as Hwf.
  destruct Hwf as ((Hw & Hh & Hl) & (Hw' & Hh' & Hl') & _).
  apply history_inv_layers; try done.
  - repeat split; try done. simpl. congruence.
  - repeat split; try done. simpl. congruence.
Qed.

Lemma history_inv_settings s m c :
  history_inv s -> byte_color c ->
  history_inv (setMode m s) /\ history_inv (setBrushColor c s).
Proof.
  intros [(Hd & Hm & Ew & Eh & Hc) Hl Hh Hcap Hf] Hbc.
  split; (split; [unfold wf_session; simpl; tauto | done | done | done |]);
    (eapply Forall_impl; [exact Hf|]; intros p; by apply snap_fits_same).
Qed.

Lemma reachable_inv s : reachable s -> history_inv s.
Proof.
  induction 1 as [s Hwf Hh Hs | s dd md _ IH Hd Hm | s x y s' _ IH Hrun
                 | s m _ IH | s c _ IH Hc | s s' _ IH Hrun | s s' _ IH Hrun].
  - split; [done | lia | rewrite Hh, Hs; simpl; lia
           | rewrite Hh; unfold HISTORY_CAP; simpl; lia
           | rewrite Hh; constructor].
  - by apply history_inv_repaint.
  - by apply (history_inv_bucket s x y).
  - apply (history_inv_settings s m (0, 0, 0)); [done|]. simpl. lia.
  - by apply (history_inv_settings s move c).
  - destruct (history_inv_save s IH) as (s1 & E & HI & _).
    rewrite E in Hrun. by injection Hrun as <-.
  - destruct (history_inv_undo s IH) as (s1 & E & HI).
    rewrite E in Hrun. by injection Hrun as <-.
Qed.

Lemma handleUndo_back s :
  history_inv s -> 0 < historyStep s ->
  exists p, history s !! Z.to_nat (historyStep s - 1) = Some p /\
    handleUndo s = Ok (with_history (history s) (historyStep s - 1)
                         (with_canvases (drawing p) (mask p) s)).
Proof.
  intros [Hwf Hl Hh Hcap Hf] Hpos. unfold handleUndo.
  destruct (Z.gtb_spec (historyStep s) 0) as [_|?]; [|lia].
  destruct (lookup_lt_is_Some_2 (history s) (Z.to_nat (historyStep s - 1)))
    as [p Hp]; [lia|].
  exists p. split; [done|]. rewrite Hp.
  pose proof (proj1 (Forall_lookup _ _) Hf _ _ Hp) as (W1 & W2 & E1 & E2 & E3 & E4).
  destruct Hwf as (Hd & Hm & _). by rewrite !putImageData_wf.
Qed.

Lemma handleUndo_first s :
  historyStep s = 0 ->
  handleUndo s = Ok (with_history (history s) (-1)
                       (with_canvases (clearCanvas (drawingCanvas s))
                                      (clearCanvas (maskCanvas s)) s)).
Proof. intros H. unfold handleUndo. by rewrite H. Qed.

Lemma handleUndo_before_first s : historyStep s < 0 -> handleUndo s = Ok s.
Proof.
  intros H. unfold handleUndo.
  destruct (Z.gtb_spec (historyStep s) 0); [lia|].
  destruct (Z.eqb_spec (historyStep s) 0); [lia|done].
Qed.

(** [n] presses of the undo button. *)
Fixpoint undoTimes (n : nat) (s : Session) : result Session :=
  match n with
  | O => Ok s
  | S n' => s' ← handleUndo s; undoTimes n' s'
  end.

Lemma undoTimes_before_first n s :
  historyStep s < 0 -> undoTimes n s = Ok s.
Proof.
  intros H. induction n as [|n IH]; [done|]. simpl.
  rewrite (handleUndo_before_first s H). cbn [mbind result_bind]. done.
Qed.

Definition all_transparent (c : ImageData) : Prop :=
  forall i v, data c !! i = Some v -> v = 0.

Lemma clearCanvas_transparent c : all_transparent (clearCanvas c).
Proof.
  intros i v H. unfold clearCanvas, transparent in H. simpl in H.
  by apply lookup_replicate in H as [-> _].
Qed.

(** ** Strokes *)

Lemma history_inv_ext s s' :
  drawingCanvas s' = drawingCanvas s -> maskCanvas s' = maskCanvas s ->
  history s' = history s -> historyStep s' = historyStep s ->
  brushColor s' = brushColor s ->
  history_inv s -> history_inv s'.
Proof.
  intros E1 E2 E3 E4 E5 [Hwf Hl Hh Hcap Hf].
  split; unfold wf_session, snap_fits in *; rewrite ?E1, ?E2, ?E3, ?E4, ?E5;
    try done.
Qed.

Definition paint_tool (m : ToolMode) : Prop :=
  m = brush \/ m = eraser \/ m = mask_tool.

(** A rasteriser leaves each layer with as many bytes as it had. *)
Definition keeps_size (draw : Session -> PointerEvent -> list Z * list Z) : Prop :=
  forall s e,
    length (draw s e).1 = length (data (drawingCanvas s)) /\
    length (draw s e).2 = length (data (maskCanvas s)).

Section Strokes.
Variable draw : Session -> PointerEvent -> list Z * list Z.
Hypothesis Hdraw : keeps_size draw.

(** What holds of the session between pointer-down and pointer-up. *)
Definition mid_stroke (s s2 : Session) : Prop :=
  history_inv s2 /\ history s2 = history s /\ historyStep s2 = historyStep s /\
  mode s2 = mode s /\ brushColor s2 = brushColor s /\
  isDrawing s2 = true /\ hasInteracted s2 = true.

Lemma mid_stroke_move s s2 e :
  paint_tool (mode s) -> mid_stroke s s2 -> mid_stroke s (handleMouseMove draw s2 e).
Proof using Hdraw.
  intros Ht (HI & E1 & E2 & E3 & E4 & E5 & E6). unfold handleMouseMove.
  rewrite E3, E5.
  assert (Hrep : mid_stroke s (repaint (draw s2 e).1 (draw s2 e).2 s2)).
  { destruct (Hdraw s2 e) as [L1 L2].
    split; [by apply history_inv_repaint|]. by repeat split. }
  by destruct Ht as [-> | [-> | ->]].
Qed.

Lemma mid_stroke_moves s moves : forall s2,
  paint_tool (mode s) -> mid_stroke s s2 ->
  mid_stroke s (foldl (handleMouseMove draw) s2 moves).
Proof using Hdraw.
  induction moves as [|e moves IH]; intros s2 Ht H2; simpl; [done|].
  apply IH; [done|]. by apply mid_stroke_move.
Qed.

(** A stroke with a paint tool pushes one snapshot, of the layers as the
    stroke left them, after the entries up to the cursor. *)
Lemma gesture_paint s down moves :
  history_inv s -> paint_tool (mode s) ->
  exists s',
    gesture draw s down moves = Ok s' /\ history_inv s' /\
    history s' = lastn 20 (take (Z.to_nat (historyStep s + 1)) (history s)
                           ++ [snapOf s']) /\
    historyStep s' = Z.of_nat (length (history s')) - 1 /\
    mode s' = mode s /\ brushColor s' = brushColor s.
Proof using Hdraw.
  intros HI Ht. unfold gesture.
  set (s1 := repaint (draw s down).1 (draw s down).2
               (with_drawing_flags true true s)).
  assert (Hdown : handleMouseDown draw s down = Ok s1).
  { unfold handleMouseDown. by destruct Ht as [-> | [-> | ->]]. }
  rewrite Hdown. cbn [mbind result_bind].
  assert (H1 : mid_stroke s s1).
  { destruct (Hdraw s down) as [L1 L2].
    split; [|by repeat split].
    apply history_inv_repaint; [|done..].
    by apply (history_inv_ext s). }
  pose proof (mid_stroke_moves s moves s1 Ht H1) as (HI2 & E1 & E2 & E3 & E4 & E5 & E6).
  set (s2 := foldl (handleMouseMove draw) s1 moves) in *.
  unfold handleMouseUp. rewrite E5, E6. cbn [andb].
  destruct (history_inv_save s2 HI2) as (s3 & Hsave & HI3 & Hh & Hs & Hd & Hm).
  rewrite Hsave. cbn [mbind result_bind].
  eexists. split; [done|].
  split; [by apply (history_inv_ext s3)|].
  simpl. rewrite Hh, E1, E2.
  split; [unfold snapOf; simpl; by rewrite Hd, Hm|].
  split; [by rewrite Hs, Hh, E1, E2|].
  unfold saveHistory in Hsave.
  destruct (getImageData (drawingCanvas s2) _ _); [|done..].
  destruct (getImageData (maskCanvas s2) _ _); [|done..].
  cbn [mbind result_bind] in Hsave. injection Hsave as <-. by simpl.
Qed.
End Strokes.

(** ** Blank layers and the session after image load *)

Definition blankLayer (w h : Z) : ImageData := mkImageData w h (transparent w h).

(** The session [handleImageLoad] leaves when the modal has just opened. *)
Definition loaded (w h : Z) : Session :=
  mkSession (blankLayer w h) (blankLayer w h)
            [mkSnapshot (blankLayer w h) (blankLayer w h)] 0
            move (255, 0, 85) (0, 0)%Q 1%Q false (0, 0)%Q false false.

Lemma wf_blankLayer w h : 0 < w -> 0 < h -> wf_canvas (blankLayer w h).
Proof. intros Hw Hh. repeat split; try done. apply length_transparent. Qed.

Lemma rd_transparent w h i :
  0 <= i < 4 * w * h -> rd (transparent w h) i = Some 0.
Proof. intros H. apply rd_replicate. lia. Qed.

Lemma pixelAt_blank w h x y :
  in_bounds w h x y -> pixelAt (blankLayer w h) x y = rgba 0 0 0 0.
Proof.
  intros Hin. pose proof (offset_range _ _ _ _ Hin).
  unfold pixelAt, getPixel, rgba. simpl.
  by rewrite !(rd_transparent w h) by lia.
Qed.

Lemma alphaAt_blank w h x y :
  in_bounds w h x y -> alphaAt (blankLayer w h) x y = Some 0.
Proof.
  intros Hin. pose proof (offset_range _ _ _ _ Hin).
  unfold alphaAt. simpl. apply rd_transparent. lia.
Qed.

Lemma wf_loaded w h : 0 < w -> 0 < h -> wf_session (loaded w h).
Proof.
  intros Hw Hh. unfold wf_session. simpl.
  split; [by apply wf_blankLayer|]. split; [by apply wf_blankLayer|]. lia.
Qed.

Lemma handleImageLoad_initial w h :
  0 < w -> 0 < h -> handleImageLoad w h initialSession = Ok (loaded w h).
Proof.
  intros Hw Hh. unfold handleImageLoad.
  rewrite saveHistory_wf.
  - reflexivity.
  - unfold wf_session. simpl.
    split; [by apply wf_blankLayer|]. split; [by apply wf_blankLayer|]. lia.
Qed.

Lemma reachable_loaded w h : 0 < w -> 0 < h -> reachable (loaded w h).
Proof.
  intros Hw Hh. apply (reach_save (with_canvases (blankLayer w h) (blankLayer w h)
                                     initialSession)).
  - apply reach_fresh; [|done..]. unfold wf_session. simpl.
    split; [by apply wf_blankLayer|]. split; [by apply wf_blankLayer|]. lia.
  - by apply handleImageLoad_initial.
Qed.

(** ** Connectivity of an unobstructed buffer *)

Lemma interval_walk (P : Z -> Prop) lo hi a :
  lo <= a < hi -> P a ->
  (forall z, lo <= z -> z + 1 < hi -> P z -> P (z + 1)) ->
  (forall z, lo <= z - 1 -> z < hi -> P z -> P (z - 1)) ->
  forall z, lo <= z < hi -> P z.
Proof.
  intros Ha Pa Hup Hdown.
  assert (Hu : forall n : nat, a + Z.of_nat n < hi -> P (a + Z.of_nat n)).
  { induction n as [|n IH]; intros Hn.
    - by rewrite Z.add_0_r.
    - replace (a + Z.of_nat (S n)) with (a + Z.of_nat n + 1) in * by lia.
      apply Hup; [lia | lia | apply IH; lia]. }
  assert (Hd : forall n : nat, lo <= a - Z.of_nat n -> P (a - Z.of_nat n)).
  { induction n as [|n IH]; intros Hn.
    - by rewrite Z.sub_0_r.
    - replace (a - Z.of_nat (S n)) with (a - Z.of_nat n - 1) in * by lia.
      apply Hdown; [lia | lia | apply IH; lia]. }
  intros z Hz. destruct (Z.le_gt_cases a z).
  - replace z with (a + Z.of_nat (Z.to_nat (z - a))) by lia. apply Hu. lia.
  - replace z with (a - Z.of_nat (Z.to_nat (a - z))) by lia. apply Hd. lia.
Qed.

Lemma neighbours_spec x y x' y' :
  (x', y') ∈ neighbours x y <->
  (x' = x /\ y' = y - 1) \/ (x' = x /\ y' = y + 1) \/
  (x' = x - 1 /\ y' = y) \/ (x' = x + 1 /\ y' = y).
Proof.
  unfold neighbours. rewrite !elem_of_cons, elem_of_nil.
  split.
  - intros [[= -> ->] | [[= -> ->] | [[= -> ->] | [[= -> ->] | []]]]]; tauto.
  - intros [[-> ->] | [[-> ->] | [[-> ->] | [-> ->]]]]; tauto.
Qed.

(** When every pixel of the buffer passes the tests, the region of an
    in-bounds seed is the whole buffer. *)
Lemma region_all s x0 y0 :
  in_bounds (width (drawingCanvas s)) (height (drawingCanvas s)) x0 y0 ->
  (forall x y,
      in_bounds (width (drawingCanvas s)) (height (drawingCanvas s)) x y ->
      canFill s x0 y0 x y) ->
  forall x y,
    in_bounds (width (drawingCanvas s)) (height (drawingCanvas s)) x y ->
    region s x0 y0 x y.
Proof.
  intros [Hx0 Hy0] Hall x y [Hx Hy].
  assert (Hrow : region s x0 y0 x y0).
  { apply (interval_walk (fun x => region s x0 y0 x y0) 0
             (width (drawingCanvas s)) x0); try done.
    - apply region_seed. by apply Hall.
    - intros z Hz1 Hz2 Hr. apply (region_step _ _ _ z y0); [done| |].
      + apply neighbours_spec. tauto.
      + apply Hall. unfold in_bounds. lia.
    - intros z Hz1 Hz2 Hr. apply (region_step _ _ _ z y0); [done| |].
      + apply neighbours_spec. tauto.
      + apply Hall. unfold in_bounds. lia. }
  apply (interval_walk (fun y => region s x0 y0 x y) 0
           (height (drawingCanvas s)) y0); try done.
  - intros z Hz1 Hz2 Hr. apply (region_step _ _ _ x z); [done| |].
    + apply neighbours_spec. tauto.
    + apply Hall. unfold in_bounds. lia.
  - intros z Hz1 Hz2 Hr. apply (region_step _ _ _ x z); [done| |].
    + apply neighbours_spec. tauto.
    + apply Hall. unfold in_bounds. lia.
Qed.

(** ** The masked scenario *)

(** A [w] by [h] mask layer, transparent except for an opaque square
    [x1 <= x < x2], [y1 <= y < y2] in the mask colour. *)
Definition squareMask (w h x1 y1 x2 y2 : Z) : ImageData :=
  mkImageData w h
    (imap (fun i (_ : Z) =>
             let p := Z.of_nat i / 4 in
             let x := p mod w in
             let y := p / w in
             if (x1 <=? x) && (x <? x2) && (y1 <=? y) && (y <? y2)
             then nth (Z.to_nat (Z.of_nat i mod 4)) [0; 255; 100; 255] 0
             else 0)
          (transparent w h)).

(** 100 by 100 layers, nothing drawn, a 20 by 20 opaque mask square
    centred at (50, 50), bucket tool with opaque red. *)
Definition maskedScenario : Session :=
  mkSession (blankLayer 100 100) (squareMask 100 100 40 40 60 60)
            [mkSnapshot (blankLayer 100 100) (blankLayer 100 100);
             mkSnapshot (blankLayer 100 100) (squareMask 100 100 40 40 60 60)]
            1 bucket (255, 0, 0) (0, 0)%Q 1%Q false (0, 0)%Q false false.

Lemma wf_squareMask w h x1 y1 x2 y2 :
  0 < w -> 0 < h -> wf_canvas (squareMask w h x1 y1 x2 y2).
Proof.
  intros Hw Hh. repeat split; try done. simpl.
  by rewrite length_imap, length_transparent.
Qed.

Lemma alphaAt_squareMask w h x1 y1 x2 y2 x y :
  in_bounds w h x y ->
  alphaAt (squareMask w h x1 y1 x2 y2) x y =
    Some (if (x1 <=? x) && (x <? x2) && (y1 <=? y) && (y <? y2)
          then 255 else 0).
Proof.
  intros Hin. pose proof (offset_range _ _ _ _ Hin) as Hoff.
  destruct Hin as [Hx Hy]. unfold alphaAt, rd. simpl.
  destruct (Z.ltb_spec (offset w x y + 3) 0); [lia|].
  rewrite list_lookup_imap.
  unfold transparent. rewrite lookup_replicate_2 by lia. simpl.
  rewrite Z2Nat.id by lia.
  assert (E4 : (offset w x y + 3) / 4 = y * w + x).
  { symmetry. apply (Z.div_unique _ _ _ 3); unfold offset; lia. }
  assert (Em : (offset w x y + 3) mod 4 = 3).
  { symmetry. apply (Z.mod_unique _ _ (y * w + x)); unfold offset; lia. }
  assert (Ex : (y * w + x) mod w = x).
  { symmetry. apply (Z.mod_unique _ _ y); lia. }
  assert (Ey : (y * w + x) / w = y).
  { symmetry. apply (Z.div_unique _ _ _ x); lia. }
  rewrite E4, Em, Ex, Ey.
  by destruct ((x1 <=? x) && (x <? x2) && (y1 <=? y) && (y <? y2)).
Qed.

Lemma wf_maskedScenario : wf_session maskedScenario.
Proof.
  unfold wf_session, maskedScenario. simpl.
  split; [by apply wf_blankLayer|]. split; [by apply wf_squareMask|]. lia.
Qed.

(** ** Bucket fill on a wall, or off the buffer *)

Lemma bucket_on_wall s x0 y0 al :
  wf_session s -> alphaAt (maskCanvas s) x0 y0 = Some al -> 10 < al ->
  handleBucketFill s x0 y0 = Ok s.
Proof.
  intros Hwf Hal Hgt. apply handleBucketFill_seed_skipped; [done|].
  intros (_ & Hw & _). rewrite Hal in Hw. simpl in Hw.
  destruct (Z.ltb_spec 10 al); [done|lia].
Qed.

Lemma wall_not_in_region s x0 y0 x y al :
  alphaAt (maskCanvas s) x y = Some al -> 10 < al -> ~ region s x0 y0 x y.
Proof.
  intros Hal Hgt Hr. apply region_canFill in Hr as (_ & Hw & _).
  rewrite Hal in Hw. simpl in Hw. destruct (Z.ltb_spec 10 al); [done|lia].
Qed.

Lemma alphaAt_maskedScenario x y :
  in_bounds 100 100 x y ->
  alphaAt (maskCanvas maskedScenario) x y =
    Some (if (40 <=? x) && (x <? 60) && (40 <=? y) && (y <? 60)
          then 255 else 0).
Proof. apply (alphaAt_squareMask 100 100 40 40 60 60). Qed.

(** The seed (50, 50) is inside the square: the fill stops at once. *)
Lemma maskedScenario_fill :
  handleBucketFill maskedScenario 50 50 = Ok maskedScenario.
Proof.
  apply (bucket_on_wall _ _ _ 255); [apply wf_maskedScenario | | lia].
  rewrite alphaAt_maskedScenario; [done|]. unfold in_bounds. lia.
Qed.

Lemma maskedScenario_blank x y :
  in_bounds 100 100 x y ->
  pixelAt (drawingCanvas maskedScenario) x y = rgba 0 0 0 0.
Proof. apply (pixelAt_blank 100 100). Qed.

(** A rasteriser that leaves the layers as they are. *)
Definition noInk (s : Session) (_ : PointerEvent) : list Z * list Z :=
  (data (drawingCanvas s), data (maskCanvas s)).

(** ** Test runs *)

(** A 3 by 2 buffer whose mask alphas are 0, 11, 0 on the first row and
    10, 200, 0 on the second. *)
Definition thresholdSession : Session :=
  mkSession (blankLayer 3 2)
            (mkImageData 3 2 [0; 0; 0; 0;   0; 0; 0; 11;   0; 0; 0; 0;
                              0; 0; 0; 10;  0; 0; 0; 200;  0; 0; 0; 0])
            [] (-1) bucket (255, 0, 85) (0, 0)%Q 1%Q false (0, 0)%Q false false.

(** From (0, 0) the fill takes the pixel with mask alpha 10 and stops at
    the pixels with alpha 11 and 200, which cut off the right column. *)
Example fill_threshold_left :
  handleBucketFill thresholdSession 0 0 =
    Ok (with_canvases
          (mkImageData 3 2 [255; 0; 85; 255;  0; 0; 0; 0;  0; 0; 0; 0;
                            255; 0; 85; 255;  0; 0; 0; 0;  0; 0; 0; 0])
          (maskCanvas thresholdSession) thresholdSession).
Proof. vm_compute. reflexivity. Qed.

Example fill_threshold_right :
  handleBucketFill thresholdSession 2 0 =
    Ok (with_canvases
          (mkImageData 3 2 [0; 0; 0; 0;  0; 0; 0; 0;  255; 0; 85; 255;
                            0; 0; 0; 0;  0; 0; 0; 0;  255; 0; 85; 255])
          (maskCanvas thresholdSession) thresholdSession).
Proof. vm_compute. reflexivity. Qed.

(** A seed on a wall, and a seed off the buffer: nothing changes. *)
Example fill_threshold_wall :
  handleBucketFill thresholdSession 1 0 = Ok thresholdSession.
Proof. vm_compute. reflexivity. Qed.

Example fill_threshold_outside :
  handleBucketFill thresholdSession 3 0 = Ok thresholdSession.
Proof. vm_compute. reflexivity. Qed.

(** Two bucket clicks on one spot: the second fill changes nothing, and
    a second, identical snapshot is pushed all the same. *)
Example double_click_snapshots :
  let red := mkImageData 2 1 [255; 0; 0; 255; 255; 0; 0; 255] in
  let click := mkPointerEvent (0, 0)%Q (0, 0) in
  (s1 ← handleMouseDown noInk
          (setBrushColor (255, 0, 0) (setMode bucket (loaded 2 1))) click;
   handleMouseDown noInk s1 click)
  = Ok (mkSession red (blankLayer 2 1)
          [mkSnapshot (blankLayer 2 1) (blankLayer 2 1);
           mkSnapshot red (blankLayer 2 1);
           mkSnapshot red (blankLayer 2 1)]
          2 bucket (255, 0, 0) (0, 0)%Q 1%Q false (0, 0)%Q false false).
Proof. vm_compute. reflexivity. Qed.

(** * The claims *)

(** A 2 by 1 session for instantiating the theorems: the left pixel is
    masked (alpha 128), nothing is drawn, the brush is opaque red. *)
Definition tinySession : Session :=
  mkSession (mkImageData 2 1 [0; 0; 0; 0; 0; 0; 0; 0])
            (mkImageData 2 1 [0; 255; 100; 128; 0; 0; 0; 0])
            [mkSnapshot (mkImageData 2 1 [0; 0; 0; 0; 0; 0; 0; 0])
                        (mkImageData 2 1 [0; 0; 0; 0; 0; 0; 0; 0])]
            0 bucket (255, 0, 0) (0, 0)%Q 1%Q false (0, 0)%Q false false.

(** C1 (amended): a bucket fill from an in-bounds seed returns and leaves
    the draw-layer colour of every pixel whose mask alpha exceeds 10 as it
    was.  In the scenario of the 20 by 20 opaque square centred at
    (50, 50) on blank 100 by 100 layers, the seed (50, 50) is itself
    masked, so the fill changes nothing: all 10,000 pixels stay
    transparent. *)
Theorem C1_masked_pixels_unchanged :
  (forall s x0 y0,
      wf_session s ->
      in_bounds (width (drawingCanvas s)) (height (drawingCanvas s)) x0 y0 ->
      exists s',
        handleBucketFill s x0 y0 = Ok s' /\
        forall x y al,
          in_bounds (width (drawingCanvas s)) (height (drawingCanvas s)) x y ->
          alphaAt (maskCanvas s) x y = Some al -> 10 < al ->
          pixelAt (drawingCanvas s') x y = pixelAt (drawingCanvas s) x y) /\
  (handleBucketFill maskedScenario 50 50 = Ok maskedScenario /\
   forall x y, in_bounds 100 100 x y ->
     pixelAt (drawingCanvas maskedScenario) x y = rgba 0 0 0 0).
Proof.
  split.
  - intros s x0 y0 Hwf _.
    destruct (handleBucketFill_run s x0 y0 Hwf) as [[_ E] | [Hne _]].
    + by exists s.
    + destruct (handleBucketFill_region s x0 y0 Hwf Hne) as (out & E & _ & Hpix).
      eexists. split; [exact E|].
      intros x y al Hin Hal Hgt.
      apply (Hpix x y Hin). by apply (wall_not_in_region s x0 y0 x y al).
  - split; [apply maskedScenario_fill | apply maskedScenario_blank].
Qed.

Lemma C1_masked_pixels_unchanged_witness :
  exists s',
    handleBucketFill tinySession 1 0 = Ok s' /\
    forall x y al,
      in_bounds 2 1 x y ->
      alphaAt (maskCanvas tinySession) x y = Some al -> 10 < al ->
      pixelAt (drawingCanvas s') x y = pixelAt (drawingCanvas tinySession) x y.
Proof.
  apply (proj1 C1_masked_pixels_unchanged tinySession 1 0).
  - unfold wf_session, wf_canvas, byte_color. simpl. lia.
  - unfold in_bounds. simpl. lia.
Defined.

(** C1 as stated fails in its scenario: pixel (0, 0) is outside the mask
    square, and after the fill at (50, 50) it is still transparent, not
    the fill colour. *)
Lemma C1_unmasked_pixels_not_filled :
  alphaAt (maskCanvas maskedScenario) 0 0 = Some 0 /\
  exists s',
    handleBucketFill maskedScenario 50 50 = Ok s' /\
    pixelAt (drawingCanvas s') 0 0 = rgba 0 0 0 0 /\
    pixelAt (drawingCanvas s') 0 0 <> fillColor maskedScenario.
Proof.
  assert (Hin : in_bounds 100 100 0 0) by (unfold in_bounds; lia).
  split.
  - by rewrite alphaAt_maskedScenario.
  - exists maskedScenario. split; [apply maskedScenario_fill|].
    rewrite maskedScenario_blank by done. split; [done|].
    unfold fillColor, rgba. simpl. congruence.
Qed.

(** The session a completed fill leaves is well formed, with the same
    brush and history. *)
Lemma wf_session_filled s out :
  wf_session s -> length out = length (data (drawingCanvas s)) ->
  wf_session (with_canvases
                (mkImageData (width (drawingCanvas s))
                             (height (drawingCanvas s)) out)
                (maskCanvas s) s).
Proof.
  intros ((Hw & Hh & Hl) & Hm & Ew & Eh & Hc) Hlen.
  split; [|split; [done|]; split; [done|]; split; done].
  split; [done|]. split; [done|]. simpl. congruence.
Qed.

(** C2: when the pixel at an in-bounds seed already has the fill colour
    (all four channels), [handleBucketFill] returns the session as it
    was: no pixel and no history entry changes.  Hence a second fill at
    the same seed with the same colour returns the session the first one
    left: no pixel changes and [handleBucketFill] pushes nothing. *)
Theorem C2_same_colour_noop_and_idempotent s x0 y0 :
  wf_session s ->
  in_bounds (width (drawingCanvas s)) (height (drawingCanvas s)) x0 y0 ->
  (pixelAt (drawingCanvas s) x0 y0 = fillColor s ->
   handleBucketFill s x0 y0 = Ok s) /\
  exists s',
    handleBucketFill s x0 y0 = Ok s' /\
    handleBucketFill s' x0 y0 = Ok s' /\
    history s' = history s /\ historyStep s' = historyStep s.
Proof.
  intros Hwf Hin. split.
  { intros Heq. by destruct (handleBucketFill_run s x0 y0 Hwf) as [[_ E] | [Hne _]]. }
  destruct (handleBucketFill_run s x0 y0 Hwf) as [[_ E] | [Hne _]].
  { by exists s. }
  destruct (js_gt (alphaAt (maskCanvas s) x0 y0) 10) eqn:Hwall.
  - assert (E : handleBucketFill s x0 y0 = Ok s).
    { apply handleBucketFill_seed_skipped; [done|]. intros (_ & Hw & _). congruence. }
    by exists s.
  - destruct (handleBucketFill_region s x0 y0 Hwf Hne) as (out & E & Hlen & Hpix).
    eexists. split; [exact E|]. split; [|done].
    set (s' := with_canvases _ _ s) in *.
    assert (Hwf' : wf_session s') by (by apply wf_session_filled).
    destruct (handleBucketFill_run s' x0 y0 Hwf') as [[_ E'] | [Hne' _]]; [done|].
    exfalso. apply Hne'.
    destruct (Hpix x0 y0 Hin) as [Hfill _].
    apply Hfill. by apply region_seed.
Qed.

Lemma C2_same_colour_noop_and_idempotent_witness :
  (pixelAt (drawingCanvas tinySession) 1 0 = fillColor tinySession ->
   handleBucketFill tinySession 1 0 = Ok tinySession) /\
  exists s',
    handleBucketFill tinySession 1 0 = Ok s' /\
    handleBucketFill s' 1 0 = Ok s' /\
    history s' = history tinySession /\
    historyStep s' = historyStep tinySession.
Proof.
  apply (C2_same_colour_noop_and_idempotent tinySession 1 0).
  - unfold wf_session, wf_canvas, byte_color. simpl. lia.
  - unfold in_bounds. simpl. lia.
Defined.

(** C9: a bucket fill whose seed is outside the buffer returns normally
    (it neither throws nor runs out of iterations) with the session as
    it was: no pixel of either layer changes. *)
Theorem C9_seed_out_of_bounds_noop s x0 y0 :
  wf_session s ->
  ~ in_bounds (width (drawingCanvas s)) (height (drawingCanvas s)) x0 y0 ->
  handleBucketFill s x0 y0 = Ok s.
Proof.
  intros Hwf Hout. apply handleBucketFill_seed_skipped; [done|].
  by intros (Hin & _).
Qed.

Lemma C9_seed_out_of_bounds_noop_witness :
  handleBucketFill tinySession (-1) 1 = Ok tinySession.
Proof.
  apply (C9_seed_out_of_bounds_noop tinySession (-1) 1).
  - unfold wf_session, wf_canvas, byte_color. simpl. lia.
  - unfold in_bounds. simpl. lia.
Defined.

(** C10: the wall test is mask alpha > 10, strictly.  Take a fill whose
    guard does not fire, and a pixel the loop pops with the seed's
    colour (the seed itself, or a neighbour of a pixel of the region).
    With mask alpha at most 10 - so also from 1 to 10 - the pixel gets
    the fill colour; with mask alpha above 10 it keeps its colour. *)
Theorem C10_barrier_is_alpha_above_10 s x0 y0 x y al :
  wf_session s ->
  pixelAt (drawingCanvas s) x0 y0 <> fillColor s ->
  in_bounds (width (drawingCanvas s)) (height (drawingCanvas s)) x y ->
  ((x, y) = (x0, y0) \/
   exists x' y', region s x0 y0 x' y' /\ (x, y) ∈ neighbours x' y') ->
  pixelAt (drawingCanvas s) x y = pixelAt (drawingCanvas s) x0 y0 ->
  alphaAt (maskCanvas s) x y = Some al ->
  exists s',
    handleBucketFill s x0 y0 = Ok s' /\
    (al <= 10 -> pixelAt (drawingCanvas s') x y = fillColor s) /\
    (10 < al ->
     pixelAt (drawingCanvas s') x y = pixelAt (drawingCanvas s) x y /\
     pixelAt (drawingCanvas s') x y <> fillColor s).
Proof.
  intros Hwf Hne Hin Hpop Hcol Hal.
  destruct (handleBucketFill_region s x0 y0 Hwf Hne) as (out & E & _ & Hpix).
  eexists. split; [exact E|]. simpl.
  destruct (Hpix x y Hin) as [Hfill Hkeep]. split.
  - intros Hle. apply Hfill.
    assert (Hcan : canFill s x0 y0 x y).
    { split; [done|]. split; [|done]. rewrite Hal. simpl.
      destruct (Z.ltb_spec 10 al); [lia|done]. }
    destruct Hpop as [[= -> ->] | (x' & y' & Hr & Hn)].
    + by apply region_seed.
    + by apply (region_step _ _ _ x' y').
  - intros Hgt.
    assert (Hk : getPixel out (offset (width (drawingCanvas s)) x y)
                 = pixelAt (drawingCanvas s) x y).
    { apply Hkeep. by apply (wall_not_in_region s x0 y0 x y al). }
    unfold pixelAt at 1 3. simpl. rewrite Hk. split; [done|]. congruence.
Qed.

Lemma C10_barrier_is_alpha_above_10_witness :
  exists s',
    handleBucketFill thresholdSession 0 0 = Ok s' /\
    (10 <= 10 -> pixelAt (drawingCanvas s') 0 1 = fillColor thresholdSession) /\
    (10 < 10 ->
     pixelAt (drawingCanvas s') 0 1 = pixelAt (drawingCanvas thresholdSession) 0 1 /\
     pixelAt (drawingCanvas s') 0 1 <> fillColor thresholdSession).
Proof.
  apply (C10_barrier_is_alpha_above_10 thresholdSession 0 0 0 1 10).
  - unfold wf_session, wf_canvas, byte_color. vm_compute. intuition congruence.
  - vm_compute. congruence.
  - unfold in_bounds. simpl. lia.
  - right. exists 0, 0. split.
    + apply region_seed. split; [unfold in_bounds; simpl; lia|].
      split; reflexivity.
    + apply neighbours_spec. right. left. split; reflexivity.
  - vm_compute. reflexivity.
  - reflexivity.
Defined.

(** ** Bucket clicks *)

(** A pointer-down with the bucket tool: the fill, then one snapshot of
    the layers as the fill left them. *)
Lemma bucket_click draw s e :
  history_inv s -> mode s = bucket ->
  exists s1 s',
    handleBucketFill s (canvasPos e).1 (canvasPos e).2 = Ok s1 /\
    handleMouseDown draw s e = Ok s' /\
    history s' = lastn 20 (take (Z.to_nat (historyStep s + 1)) (history s)
                           ++ [snapOf s1]) /\
    historyStep s' = Z.of_nat (length (history s')) - 1 /\
    drawingCanvas s' = drawingCanvas s1 /\ maskCanvas s' = maskCanvas s1 /\
    maskCanvas s1 = maskCanvas s /\
    (pixelAt (drawingCanvas s) (canvasPos e).1 (canvasPos e).2 = fillColor s ->
     s1 = s).
Proof.
  intros HI Hmode. pose proof (hi_wf _ HI) as Hwf.
  assert (Hfill : exists s1,
             handleBucketFill s (canvasPos e).1 (canvasPos e).2 = Ok s1 /\
             history s1 = history s /\ historyStep s1 = historyStep s /\
             maskCanvas s1 = maskCanvas s /\
             (pixelAt (drawingCanvas s) (canvasPos e).1 (canvasPos e).2
              = fillColor s -> s1 = s)).
  { destruct (handleBucketFill_run s (canvasPos e).1 (canvasPos e).2 Hwf)
      as [[_ E] | (Hne & out & _ & _ & E)].
    - by exists s.
    - eexists. split; [exact E|]. by repeat split. }
  destruct Hfill as (s1 & E1 & Hh & Hs & Hm & Hguard).
  pose proof (history_inv_bucket _ _ _ _ HI E1) as HI1.
  destruct (history_inv_save s1 HI1) as (s' & E2 & _ & Hh' & Hs' & Hd' & Hm').
  exists s1, s'. split; [done|].
  split; [unfold handleMouseDown; rewrite Hmode; simpl in *; by rewrite E1|].
  rewrite Hh, Hs in Hh'. done.
Qed.

(** C3: a pointer-down in bucket mode runs one flood fill and then
    pushes exactly one snapshot - the layers as the fill left them -
    after the entries up to the cursor, also when the same-colour guard
    fired and the fill changed nothing. *)
Theorem C3_bucket_click_always_snapshots draw s e :
  reachable s -> mode s = bucket ->
  exists s1 s',
    handleBucketFill s (canvasPos e).1 (canvasPos e).2 = Ok s1 /\
    handleMouseDown draw s e = Ok s' /\
    history s' = lastn 20 (take (Z.to_nat (historyStep s + 1)) (history s)
                           ++ [snapOf s1]) /\
    Z.of_nat (length (history s')) = Z.min (historyStep s + 2) 20 /\
    historyStep s' = Z.of_nat (length (history s')) - 1 /\
    snapOf s' = snapOf s1 /\
    (pixelAt (drawingCanvas s) (canvasPos e).1 (canvasPos e).2 = fillColor s ->
     s1 = s /\ last (history s') = Some (snapOf s)).
Proof.
  intros Hreach Hmode. pose proof (reachable_inv s Hreach) as HI.
  destruct (bucket_click draw s e HI Hmode)
    as (s1 & s' & E1 & E2 & Hh & Hs & Hd & Hm & _ & Hguard).
  exists s1, s'. repeat (split; [done|]).
  destruct HI as [_ Hlow Hhigh _ _].
  assert (Hlen : length (take (Z.to_nat (historyStep s + 1)) (history s)
                         ++ [snapOf s1]) = S (Z.to_nat (historyStep s + 1))).
  { rewrite length_app, length_take. simpl. lia. }
  split; [rewrite Hh, length_lastn, Hlen; lia|].
  split; [done|]. split; [unfold snapOf; by rewrite Hd, Hm|].
  intros Hg. specialize (Hguard Hg). subst s1. split; [done|].
  rewrite Hh. apply last_lastn_snoc. lia.
Qed.

Lemma C3_bucket_click_always_snapshots_witness :
  exists s1 s',
    handleBucketFill (setMode bucket (loaded 2 1)) 0 0 = Ok s1 /\
    handleMouseDown (fun s _ => (data (drawingCanvas s), data (maskCanvas s)))
      (setMode bucket (loaded 2 1)) (mkPointerEvent (0, 0)%Q (0, 0)) = Ok s' /\
    history s' = lastn 20 (take (Z.to_nat (0 + 1)) (history (loaded 2 1))
                           ++ [snapOf s1]) /\
    Z.of_nat (length (history s')) = Z.min (0 + 2) 20 /\
    historyStep s' = Z.of_nat (length (history s')) - 1 /\
    snapOf s' = snapOf s1 /\
    (pixelAt (blankLayer 2 1) 0 0 = fillColor (setMode bucket (loaded 2 1)) ->
     s1 = (setMode bucket (loaded 2 1)) /\
     last (history s') = Some (snapOf (setMode bucket (loaded 2 1)))).
Proof.
  apply (C3_bucket_click_always_snapshots
           (fun s _ => (data (drawingCanvas s), data (maskCanvas s)))
           (setMode bucket (loaded 2 1)) (mkPointerEvent (0, 0)%Q (0, 0))).
  - apply reach_mode. apply reachable_loaded; lia.
  - reflexivity.
Defined.

(** ** Filling blank layers *)

(** The session after image load with the bucket tool and colour [c]. *)
Definition bucketReady (w h : Z) (c : Z * Z * Z) : Session :=
  setBrushColor c (setMode bucket (loaded w h)).

Lemma wf_bucketReady w h c :
  0 < w -> 0 < h -> byte_color c -> wf_session (bucketReady w h c).
Proof.
  intros Hw Hh Hc. unfold wf_session. simpl.
  split; [by apply wf_blankLayer|]. split; [by apply wf_blankLayer|]. done.
Qed.

Lemma fillColor_opaque s : fillColor s <> rgba 0 0 0 0.
Proof.
  unfold fillColor, rgba. destruct (brushColor s) as [[r g] b]. congruence.
Qed.

(** A bucket click anywhere on blank, unmasked layers colours every
    pixel and pushes one snapshot after the blank one. *)
Lemma bucket_click_blank draw w h c e :
  0 < w -> 0 < h -> byte_color c ->
  in_bounds w h (canvasPos e).1 (canvasPos e).2 ->
  exists s',
    handleMouseDown draw (bucketReady w h c) e = Ok s' /\
    (forall x y, in_bounds w h x y ->
       pixelAt (drawingCanvas s') x y = fillColor (bucketReady w h c)) /\
    maskCanvas s' = blankLayer w h /\
    history s' = history (bucketReady w h c) ++ [snapOf s'] /\
    historyStep s' = 1.
Proof.
  intros Hw Hh Hc Hseed.
  set (s := bucketReady w h c).
  assert (Hwf : wf_session s) by (by apply wf_bucketReady).
  assert (HI : history_inv s).
  { apply reachable_inv, reach_color; [|done].
    apply reach_mode. by apply reachable_loaded. }
  destruct (bucket_click draw s e HI eq_refl)
    as (s1 & s' & E1 & E2 & Hh' & Hs' & Hd' & Hm' & Hm1 & _).
  assert (Hne : pixelAt (drawingCanvas s) (canvasPos e).1 (canvasPos e).2
                <> fillColor s).
  { change (drawingCanvas s) with (blankLayer w h).
    rewrite pixelAt_blank by done. intros Heq. by apply (fillColor_opaque s). }
  destruct (handleBucketFill_region s _ _ Hwf Hne) as (out & E & _ & Hpix).
  rewrite E in E1. injection E1 as <-.
  exists s'. split; [done|]. split; [|split; [by rewrite Hm', Hm1|]].
  - intros x y Hin. rewrite Hd'. unfold pixelAt at 1. simpl.
    apply (Hpix x y Hin). apply region_all; [done| |done].
    intros x1 y1 Hin1. split; [done|]. split.
    + change (maskCanvas s) with (blankLayer w h).
      by rewrite alphaAt_blank.
    + change (drawingCanvas s) with (blankLayer w h).
      by rewrite !pixelAt_blank.
  - change (historyStep s) with 0 in Hh'.
    change (history s) with [mkSnapshot (blankLayer w h) (blankLayer w h)] in *.
    assert (Hsnap : snapOf s' = snapOf
              (with_canvases
                 (mkImageData (width (drawingCanvas s)) (height (drawingCanvas s)) out)
                 (maskCanvas s) s)).
    { unfold snapOf. by rewrite Hd', Hm'. }
    rewrite Hsnap. split; [exact Hh'|]. rewrite Hs', Hh'. reflexivity.
Qed.

(** C4: on blank, unmasked 100 by 100 layers (the session just after
    image load), a bucket click at (50, 50) with opaque red makes all
    10,000 pixels of the draw layer opaque red, appends exactly one
    snapshot to the history and moves [historyStep] up by exactly 1. *)
Theorem C4_fill_blank_100_by_100 draw pos :
  handleImageLoad 100 100 initialSession = Ok (loaded 100 100) /\
  exists s',
    handleMouseDown draw (bucketReady 100 100 (255, 0, 0))
                    (mkPointerEvent pos (50, 50)) = Ok s' /\
    (forall x y, in_bounds 100 100 x y ->
       pixelAt (drawingCanvas s') x y = rgba 255 0 0 255) /\
    history s' = history (bucketReady 100 100 (255, 0, 0)) ++ [snapOf s'] /\
    length (history s') = S (length (history (bucketReady 100 100 (255, 0, 0)))) /\
    historyStep s' = historyStep (bucketReady 100 100 (255, 0, 0)) + 1.
Proof.
  split; [apply handleImageLoad_initial; lia|].
  destruct (bucket_click_blank draw 100 100 (255, 0, 0)
              (mkPointerEvent pos (50, 50)))
    as (s' & E & Hpix & _ & Hh & Hs); try lia.
  { unfold byte_color. lia. }
  { unfold in_bounds. simpl. lia. }
  exists s'. split; [exact E|]. split; [exact Hpix|].
  split; [exact Hh|]. split; [|exact Hs].
  rewrite Hh. rewrite length_app. simpl. lia.
Qed.

(** ** Undo and the history bounds *)



(** Layer edits each followed by a snapshot push. *)
Fixpoint pushAll (paints : list (list Z * list Z)) (s : Session)
  : result Session :=
  match paints with
  | [] => Ok s
  | p :: rest => s1 ← saveHistory (repaint p.1 p.2 s); pushAll rest s1
  end.

(** The snapshot of session [s] repainted with [p]. *)
Definition paintSnap (s : Session) (p : list Z * list Z) : Snapshot :=
  snapOf (repaint p.1 p.2 s).

Definition fits_layers (s : Session) (p : list Z * list Z) : Prop :=
  length p.1 = length (data (drawingCanvas s)) /\
  length p.2 = length (data (maskCanvas s)).

Lemma pushAll_lastn paints : forall s,
  history_inv s ->
  historyStep s = Z.of_nat (length (history s)) - 1 ->
  Forall (fits_layers s) paints ->
  exists s',
    pushAll paints s = Ok s' /\ history_inv s' /\
    history s' = lastn 20 (history s ++ map (paintSnap s) paints) /\
    historyStep s' = Z.of_nat (length (history s')) - 1.
Proof.
  induction paints as [|p rest IH]; intros s HI Hend Hfit.
  - exists s. split; [done|]. split; [done|]. split; [|done].
    simpl. rewrite app_nil_r. unfold lastn.
    pose proof (hi_cap _ HI) as Hcap. unfold HISTORY_CAP in Hcap.
    by replace (length (history s) - 20)%nat with 0%nat by lia.
  - apply Forall_cons in Hfit as [[Hp1 Hp2] Hfit]. simpl.
    pose proof (history_inv_repaint s p.1 p.2 HI Hp1 Hp2) as HI1.
    destruct (history_inv_save _ HI1) as (s1 & E & HI2 & Hh & Hs & Hd & Hm).
    rewrite E. cbn [mbind result_bind].
    simpl in Hh. rewrite Hend in Hh.
    replace (Z.to_nat (Z.of_nat (length (history s)) - 1 + 1))
      with (length (history s)) in Hh by lia.
    rewrite take_ge in Hh by lia.
    destruct (IH s1 HI2 Hs) as (s' & E' & HI' & Hh' & Hs').
    { eapply Forall_impl; [exact Hfit|]. intros q [Hq1 Hq2].
      unfold fits_layers. rewrite Hd, Hm. simpl. split; congruence. }
    exists s'. split; [done|]. split; [done|]. split; [|done].
    rewrite Hh', Hh. rewrite lastn_app_lastn. rewrite <- app_assoc. simpl.
    do 3 f_equal. apply map_ext. intros q.
    unfold paintSnap, snapOf, repaint. simpl. by rewrite Hd, Hm.
Qed.

(** C6: every reachable session has [-1 <= historyStep], [historyStep]
    below [max (length, historyStep + 1)] and below the length whenever
    the history is not empty, and at most 20 snapshots.  Pushing
    snapshots with the cursor at the end keeps the 20 most recent of the
    old and new entries: once there are more than 20, the oldest are
    gone. *)
Theorem C6_history_bounds :
  (forall s, reachable s ->
     -1 <= historyStep s /\
     historyStep s < Z.max (Z.of_nat (length (history s))) (historyStep s + 1) /\
     (0 < Z.of_nat (length (history s)) ->
      historyStep s < Z.of_nat (length (history s))) /\
     Z.of_nat (length (history s)) <= HISTORY_CAP) /\
  (forall s paints,
     reachable s ->
     historyStep s = Z.of_nat (length (history s)) - 1 ->
     Forall (fits_layers s) paints ->
     exists s',
       pushAll paints s = Ok s' /\
       history s' = lastn 20 (history s ++ map (paintSnap s) paints) /\
       length (history s')
       = ((length (history s) + length paints) `min` 20)%nat /\
       historyStep s' = Z.of_nat (length (history s')) - 1).
Proof.
  split.
  - intros s Hreach. destruct (reachable_inv s Hreach) as [_ Hl Hh Hcap _].
    repeat split; try done. lia.
  - intros s paints Hreach Hend Hfit.
    destruct (pushAll_lastn paints s (reachable_inv s Hreach) Hend Hfit)
      as (s' & E & _ & Hh & Hs).
    exists s'. split; [done|]. split; [done|]. split; [|done].
    by rewrite Hh, length_lastn, length_app, length_map.
Qed.

Lemma C6_history_bounds_witness :
  (-1 <= historyStep (loaded 2 1) /\
   historyStep (loaded 2 1)
   < Z.max (Z.of_nat (length (history (loaded 2 1))))
           (historyStep (loaded 2 1) + 1) /\
   (0 < Z.of_nat (length (history (loaded 2 1))) ->
    historyStep (loaded 2 1) < Z.of_nat (length (history (loaded 2 1)))) /\
   Z.of_nat (length (history (loaded 2 1))) <= HISTORY_CAP) /\
  (exists s',
     pushAll (replicate 21 (replicate 8 7, replicate 8 0)) (loaded 2 1) = Ok s' /\
     history s' = lastn 20 (history (loaded 2 1)
                            ++ map (paintSnap (loaded 2 1))
                                 (replicate 21 (replicate 8 7, replicate 8 0))) /\
     length (history s')
     = ((length (history (loaded 2 1))
         + length (replicate 21 (replicate 8 7, replicate 8 0))) `min` 20)%nat /\
     historyStep s' = Z.of_nat (length (history s')) - 1).
Proof.
  split.
  - apply (proj1 C6_history_bounds (loaded 2 1)).
    apply reachable_loaded; lia.
  - apply (proj2 C6_history_bounds (loaded 2 1)).
    + apply reachable_loaded; lia.
    + reflexivity.
    + apply Forall_replicate. split; reflexivity.
Defined.

(** ** Pushing after undo *)

Lemma lastn_short {A} n (l : list A) : (length l <= n)%nat -> lastn n l = l.
Proof.
  intros H. unfold lastn. by replace (length l - n)%nat with 0%nat by lia.
Qed.

Lemma saveHistory_mid s :
  history_inv s ->
  historyStep s < Z.of_nat (length (history s)) - 1 ->
  exists s',
    saveHistory s = Ok s' /\
    history s' = take (Z.to_nat (historyStep s + 1)) (history s) ++ [snapOf s] /\
    historyStep s' = historyStep s + 1.
Proof.
  intros HI Hmid. pose proof HI as [_ Hl Hh Hcap _]. unfold HISTORY_CAP in Hcap.
  destruct (history_inv_save s HI) as (s' & E & _ & Hh' & Hs' & _).
  assert (Hlen : length (take (Z.to_nat (historyStep s + 1)) (history s)
                         ++ [snapOf s]) = S (Z.to_nat (historyStep s + 1))).
  { rewrite length_app, length_take. simpl. lia. }
  rewrite lastn_short in Hh' by lia.
  exists s'. split; [done|]. split; [done|]. rewrite Hs', Hh', Hlen. lia.
Qed.

Section Scenario.
Variable draw : Session -> PointerEvent -> list Z * list Z.
Hypothesis Hdraw : keeps_size draw.
Variables (w h : Z).
Hypothesis Hw : 0 < w.
Hypothesis Hh : 0 < h.
Variables (e1 e2 e3 e4 : PointerEvent) (m1 m2 m3 m4 : list PointerEvent).

Abbreviation blankSnap := (mkSnapshot (blankLayer w h) (blankLayer w h)).

(** Three strokes, two undos and a fourth stroke after image load. *)
Lemma strokes_undo_stroke :
  exists s1 s2 s3 s4 s5 s6,
    gesture draw (setMode brush (loaded w h)) e1 m1 = Ok s1 /\
    gesture draw s1 e2 m2 = Ok s2 /\
    gesture draw s2 e3 m3 = Ok s3 /\
    history s3 = [blankSnap; snapOf s1; snapOf s2; snapOf s3] /\
    historyStep s3 = 3 /\
    handleUndo s3 = Ok s4 /\
    handleUndo s4 = Ok s5 /\
    snapOf s5 = snapOf s1 /\ historyStep s5 = 1 /\
    gesture draw s5 e4 m4 = Ok s6 /\
    history s6 = [blankSnap; snapOf s1; snapOf s6] /\
    historyStep s6 = 2.
Proof using Hdraw Hw Hh.
  set (s0 := setMode brush (loaded w h)).
  assert (HI0 : history_inv s0).
  { apply reachable_inv, reach_mode. by apply reachable_loaded. }
  assert (Ht : paint_tool brush) by (by left).
  destruct (gesture_paint draw Hdraw s0 e1 m1 HI0 Ht)
    as (s1 & E1 & HI1 & H1 & S1 & M1 & _).
  change (take _ (history s0)) with [blankSnap] in H1.
  rewrite lastn_short in H1 by (simpl; lia). simpl in H1.
  rewrite H1 in S1. simpl in S1.
  destruct (gesture_paint draw Hdraw s1 e2 m2 HI1 ltac:(by rewrite M1))
    as (s2 & E2 & HI2 & H2 & S2 & M2 & _).
  rewrite S1, H1 in H2. simpl in H2.
  rewrite lastn_short in H2 by (simpl; lia). simpl in H2.
  rewrite H2 in S2. simpl in S2.
  destruct (gesture_paint draw Hdraw s2 e3 m3 HI2 ltac:(by rewrite M2, M1))
    as (s3 & E3 & HI3 & H3 & S3 & M3 & _).
  rewrite S2, H2 in H3. simpl in H3.
  rewrite lastn_short in H3 by (simpl; lia). simpl in H3.
  rewrite H3 in S3. simpl in S3.
  destruct (handleUndo_back s3 HI3 ltac:(lia)) as (p3 & L3 & U3).
  rewrite S3, H3 in L3. simpl in L3. injection L3 as <-.
  set (s4 := with_history (history s3) (historyStep s3 - 1)
               (with_canvases (drawing (snapOf s2)) (mask (snapOf s2)) s3)) in *.
  assert (HI4 : history_inv s4).
  { destruct (history_inv_undo s3 HI3) as (s4' & U3' & HI4).
    rewrite U3 in U3'. by injection U3' as <-. }
  assert (S4 : historyStep s4 = 2) by (simpl; lia).
  destruct (handleUndo_back s4 HI4 ltac:(lia)) as (p4 & L4 & U4).
  rewrite S4 in L4. simpl in L4. rewrite H3 in L4. simpl in L4.
  injection L4 as <-.
  set (s5 := with_history (history s4) (historyStep s4 - 1)
               (with_canvases (drawing (snapOf s1)) (mask (snapOf s1)) s4)) in *.
  assert (HI5 : history_inv s5).
  { destruct (history_inv_undo s4 HI4) as (s5' & U4' & HI5).
    rewrite U4 in U4'. by injection U4' as <-. }
  assert (S5 : historyStep s5 = 1) by (simpl; lia).
  assert (M5 : mode s5 = brush) by (simpl; by rewrite M3, M2, M1).
  destruct (gesture_paint draw Hdraw s5 e4 m4 HI5 ltac:(by rewrite M5))
    as (s6 & E6 & HI6 & H6 & S6 & _).
  rewrite S5 in H6. change (history s5) with (history s3) in H6.
  rewrite H3 in H6. simpl in H6.
  rewrite lastn_short in H6 by (simpl; lia). simpl in H6.
  rewrite H6 in S6. simpl in S6.
  exists s1, s2, s3, s4, s5, s6. by repeat split.
Qed.
End Scenario.

(** C7: in a reachable session whose cursor is not at the last index,
    [saveHistory] keeps the snapshots up to the cursor, drops the later
    ones and appends the new one.  After image load (one blank
    snapshot), three strokes, two undos and one more stroke, the history
    is the blank snapshot, the first stroke's and the new stroke's: 3
    entries, [historyStep = 2]; the snapshots of the second and third
    strokes are no longer stored. *)
Theorem C7_push_after_undo_drops_redo :
  (forall s,
     reachable s ->
     historyStep s < Z.of_nat (length (history s)) - 1 ->
     exists s',
       saveHistory s = Ok s' /\
       history s'
       = take (Z.to_nat (historyStep s + 1)) (history s) ++ [snapOf s] /\
       historyStep s' = historyStep s + 1) /\
  (forall draw w h e1 e2 e3 e4 m1 m2 m3 m4,
     keeps_size draw -> 0 < w -> 0 < h ->
     exists s1 s2 s3 s4 s5 s6,
       handleImageLoad w h initialSession = Ok (loaded w h) /\
       gesture draw (setMode brush (loaded w h)) e1 m1 = Ok s1 /\
       gesture draw s1 e2 m2 = Ok s2 /\
       gesture draw s2 e3 m3 = Ok s3 /\
       history s3 = [mkSnapshot (blankLayer w h) (blankLayer w h);
                     snapOf s1; snapOf s2; snapOf s3] /\
       handleUndo s3 = Ok s4 /\
       handleUndo s4 = Ok s5 /\
       gesture draw s5 e4 m4 = Ok s6 /\
       history s6 = [mkSnapshot (blankLayer w h) (blankLayer w h);
                     snapOf s1; snapOf s6] /\
       length (history s6) = 3%nat /\
       historyStep s6 = 2).
Proof.
  split.
  - intros s Hreach Hmid. apply saveHistory_mid; [|done].
    by apply reachable_inv.
  - intros draw w h e1 e2 e3 e4 m1 m2 m3 m4 Hdraw Hw Hh.
    destruct (strokes_undo_stroke draw Hdraw w h Hw Hh e1 e2 e3 e4 m1 m2 m3 m4)
      as (s1 & s2 & s3 & s4 & s5 & s6 & E1 & E2 & E3 & H3 & _ & U3 & U4 & _ & _
          & E6 & H6 & S6).
    exists s1, s2, s3, s4, s5, s6.
    split; [by apply handleImageLoad_initial|].
    repeat (split; [done|]). split; [by rewrite H6|done].
Qed.

(** The session after image load and one undo: cursor -1, one entry. *)
Definition undoneSession : Session :=
  with_history (history (loaded 2 1)) (-1)
    (with_canvases (clearCanvas (blankLayer 2 1)) (clearCanvas (blankLayer 2 1))
                   (loaded 2 1)).

Lemma C7_push_after_undo_drops_redo_witness :
  (exists s',
     saveHistory undoneSession = Ok s' /\
     history s'
     = take (Z.to_nat (historyStep undoneSession + 1)) (history undoneSession)
       ++ [snapOf undoneSession] /\
     historyStep s' = historyStep undoneSession + 1) /\
  (exists s1 s2 s3 s4 s5 s6,
     handleImageLoad 2 1 initialSession = Ok (loaded 2 1) /\
     gesture noInk (setMode brush (loaded 2 1))
             (mkPointerEvent (0, 0)%Q (0, 0)) [] = Ok s1 /\
     gesture noInk s1 (mkPointerEvent (0, 0)%Q (1, 0)) [] = Ok s2 /\
     gesture noInk s2 (mkPointerEvent (0, 0)%Q (0, 0)) [] = Ok s3 /\
     history s3 = [mkSnapshot (blankLayer 2 1) (blankLayer 2 1);
                   snapOf s1; snapOf s2; snapOf s3] /\
     handleUndo s3 = Ok s4 /\
     handleUndo s4 = Ok s5 /\
     gesture noInk s5 (mkPointerEvent (0, 0)%Q (1, 0)) [] = Ok s6 /\
     history s6 = [mkSnapshot (blankLayer 2 1) (blankLayer 2 1);
                   snapOf s1; snapOf s6] /\
     length (history s6) = 3%nat /\
     historyStep s6 = 2).
Proof.
  split.
  - apply (proj1 C7_push_after_undo_drops_redo undoneSession).
    + apply (reach_undo (loaded 2 1)); [apply reachable_loaded; lia|].
      reflexivity.
    + simpl. lia.
  - apply (proj2 C7_push_after_undo_drops_redo noInk 2 1).
    + intros s e. split; reflexivity.
    + lia.
    + lia.
Defined.

(** ** Export *)

(** The current transform of the output context, while it holds only
    translations and axis-aligned scalings: [x] goes to [sx * x + tx],
    [y] to [sy * y + ty]. *)
Record Transform := mkTransform { sx : Q; sy : Q; tx : Q; ty : Q }.

Definition runOp (t : Transform) (op : CanvasOp) : Transform :=
  match op with
  | Translate a b =>
      mkTransform (sx t) (sy t) (tx t + sx t * a)%Q (ty t + sy t * b)%Q
  | Scale a b => mkTransform (sx t * a)%Q (sy t * b)%Q (tx t) (ty t)
  | _ => t
  end.

Definition finalTransform (l : list CanvasOp) : Transform :=
  foldl runOp (mkTransform 1 1 0 0) l.

Definition drawn (l : list CanvasOp) : list Layer :=
  omap (fun op => match op with DrawImage ly _ _ _ _ => Some ly | _ => None end) l.

(** C8: for every pan, zoom and source image size, the export is a 1024
    by 1024 canvas on which [handleSave] fills the whole area with the
    background, translates to the centre, translates by the pan times
    1024/500, scales by the zoom, and draws the source image and then the
    draw layer in the rectangle of height 1024 and width 1024 times the
    aspect ratio centred on the origin; the resulting transform has scale
    [zoom] and offset centre + pan * 1024/500; the mask layer is never
    drawn, whether or not the draw layer is there. *)
Theorem C8_export_transform s naturalWidth naturalHeight :
  let o := inject_Z 1024 in
  let aspect := (inject_Z naturalWidth / inject_Z naturalHeight)%Q in
  let drawWidth := (o * aspect)%Q in
  let drawHeight := o in
  exists ex,
    handleSave s (Some (naturalWidth, naturalHeight)) true = Some ex /\
    outWidth ex = 1024 /\ outHeight ex = 1024 /\
    ops ex =
      [ FillRectBlack 0 0 o o;
        Translate (o / 2) (o / 2);
        Translate (fst (pan s) * (o / inject_Z 500)) (snd (pan s) * (o / inject_Z 500));
        Scale (zoom s) (zoom s);
        DrawImage SourceImage (- drawWidth / 2) (- drawHeight / 2)
                  drawWidth drawHeight;
        DrawImage DrawLayer (- drawWidth / 2) (- drawHeight / 2)
                  drawWidth drawHeight ]%Q /\
    (sx (finalTransform (ops ex)) == zoom s)%Q /\
    (sy (finalTransform (ops ex)) == zoom s)%Q /\
    (tx (finalTransform (ops ex)) == 512 + fst (pan s) * (1024 / 500))%Q /\
    (ty (finalTransform (ops ex)) == 512 + snd (pan s) * (1024 / 500))%Q /\
    drawn (ops ex) = [SourceImage; DrawLayer] /\
    forall hasDrawing,
      exists ex',
        handleSave s (Some (naturalWidth, naturalHeight)) hasDrawing = Some ex' /\
        MaskLayer ∉ drawn (ops ex').
Proof.
  intros o aspect drawWidth drawHeight.
  eexists. split; [reflexivity|]. cbn [outWidth outHeight ops app].
  split; [done|]. split; [done|]. split; [done|].
  unfold finalTransform. cbn [foldl runOp sx sy tx ty].
  change (inject_Z 1024) with 1024%Q. change (inject_Z VIEWPORT_SIZE) with 500%Q.
  split; [ring|]. split; [ring|]. split; [field|]. split; [field|].
  split; [done|].
  intros [|]; (eexists; split; [reflexivity|]); simpl;
    rewrite ?not_elem_of_cons; repeat split; try done; apply not_elem_of_nil.
Qed.

(** * Further properties of the editor *)

(** ** What a fill colours *)

(** On well-formed layers a bucket fill from any seed returns, leaves the
    mask layer, the history and the layer sizes alone, gives every pixel
    of the seed's region the fill colour and keeps every other pixel. *)
Theorem fill_colours_exactly_the_region s x0 y0 :
  wf_session s ->
  exists s',
    handleBucketFill s x0 y0 = Ok s' /\
    maskCanvas s' = maskCanvas s /\
    history s' = history s /\ historyStep s' = historyStep s /\
    width (drawingCanvas s') = width (drawingCanvas s) /\
    height (drawingCanvas s') = height (drawingCanvas s) /\
    forall x y,
      in_bounds (width (drawingCanvas s)) (height (drawingCanvas s)) x y ->
      (region s x0 y0 x y -> pixelAt (drawingCanvas s') x y = fillColor s) /\
      (~ region s x0 y0 x y ->
       pixelAt (drawingCanvas s') x y = pixelAt (drawingCanvas s) x y).
Proof.
  intros Hwf.
  destruct (handleBucketFill_run s x0 y0 Hwf) as [[Hg E] | [Hne _]].
  - exists s. repeat (split; [done|]). intros x y _. split; [|done].
    intros Hr. apply region_canFill in Hr as (_ & _ & Hc). congruence.
  - destruct (handleBucketFill_region s x0 y0 Hwf Hne) as (out & E & _ & Hpix).
    eexists. split; [exact E|]. repeat (split; [done|]). exact Hpix.
Qed.

Lemma fill_colours_exactly_the_region_witness :
  exists s',
    handleBucketFill thresholdSession 0 0 = Ok s' /\
    maskCanvas s' = maskCanvas thresholdSession /\
    history s' = history thresholdSession /\
    historyStep s' = historyStep thresholdSession /\
    width (drawingCanvas s') = width (drawingCanvas thresholdSession) /\
    height (drawingCanvas s') = height (drawingCanvas thresholdSession) /\
    forall x y,
      in_bounds 3 2 x y ->
      (region thresholdSession 0 0 x y ->
       pixelAt (drawingCanvas s') x y = fillColor thresholdSession) /\
      (~ region thresholdSession 0 0 x y ->
       pixelAt (drawingCanvas s') x y
       = pixelAt (drawingCanvas thresholdSession) x y).
Proof.
  apply (fill_colours_exactly_the_region thresholdSession 0 0).
  unfold wf_session, wf_canvas, byte_color. vm_compute. intuition congruence.
Defined.

(** ** Layers and the snapshot at the cursor *)

(** The layers are what the cursor points at: the snapshot at
    [historyStep], or blank layers when the cursor is before the first
    snapshot. *)
Definition synced (s : Session) : Prop :=
  if historyStep s <? 0
  then all_transparent (drawingCanvas s) /\ all_transparent (maskCanvas s)
  else history s !! Z.to_nat (historyStep s) = Some (snapOf s).

Lemma clearCanvas_blank c : wf_canvas c -> all_transparent c -> clearCanvas c = c.
Proof.
  intros (Hw & Hh & Hlen) Ht. destruct c as [w h d]. unfold clearCanvas.
  simpl in *. f_equal. apply list_eq. intros i. unfold transparent.
  destruct (decide (i < length d)%nat) as [Hi|Hi].
  - rewrite lookup_replicate_2 by lia.
    destruct (lookup_lt_is_Some_2 d i Hi) as [v Hv]. rewrite Hv.
    by rewrite (Ht i v Hv).
  - rewrite (lookup_ge_None_2 d) by lia. apply lookup_replicate_None. lia.
Qed.

Lemma lookup_lastn_snoc_prev {A} n (L : list A) x :
  (2 <= n)%nat -> L <> [] ->
  lastn n (L ++ [x]) !! (length (lastn n (L ++ [x])) - 2)%nat = last L.
Proof.
  intros Hn HL. assert (0 < length L)%nat by (destruct L; simpl; [done|lia]).
  rewrite length_lastn. unfold lastn. rewrite lookup_drop, length_app. simpl.
  replace (length L + 1 - n + ((length L + 1) `min` n - 2))%nat
    with (pred (length L)) by lia.
  rewrite lookup_app_l by lia. by rewrite last_lookup.
Qed.

Lemma last_take_lookup {A} (H : list A) k :
  (k < length H)%nat -> last (take (S k) H) = H !! k.
Proof.
  intros Hk. rewrite last_lookup, length_take.
  replace (pred (S k `min` length H)) with k by lia.
  apply lookup_take_lt. lia.
Qed.

(** Undo right after a push from cursor [k >= 0] restores the snapshot
    that was at [k]. *)
Lemma undo_after_push s s' x :
  history_inv s -> history_inv s' -> 0 <= historyStep s ->
  history s' = lastn 20 (take (Z.to_nat (historyStep s + 1)) (history s) ++ [x]) ->
  historyStep s' = Z.of_nat (length (history s')) - 1 ->
  exists p s'',
    history s !! Z.to_nat (historyStep s) = Some p /\
    handleUndo s' = Ok s'' /\
    drawingCanvas s'' = drawing p /\ maskCanvas s'' = mask p /\
    history s'' = history s' /\ historyStep s'' = historyStep s' - 1.
Proof.
  intros HI HI' Hk Hh Hs. pose proof HI as [_ _ Hhigh _ _].
  set (L := take (Z.to_nat (historyStep s + 1)) (history s)) in *.
  assert (HL : length L = Z.to_nat (historyStep s + 1)).
  { subst L. rewrite length_take. lia. }
  assert (HLne : L <> []) by (intros E; rewrite E in HL; simpl in HL; lia).
  assert (Hlen' : (2 <= length (history s'))%nat).
  { rewrite Hh, length_lastn, length_app. simpl. lia. }
  destruct (handleUndo_back s' HI' ltac:(lia)) as (p & Hp & E).
  exists p. eexists. split; [|split; [exact E|done]].
  rewrite <- Hp, Hs.
  replace (Z.to_nat (Z.of_nat (length (history s')) - 1 - 1))
    with (length (history s') - 2)%nat by lia.
  rewrite Hh, lookup_lastn_snoc_prev by (done || lia).
  subst L. replace (Z.to_nat (historyStep s + 1))
    with (S (Z.to_nat (historyStep s))) by lia.
  symmetry. apply last_take_lookup. lia.
Qed.

(** ** Whole gestures *)

(** The Reset button: [clearCanvas] on both layers, then [saveHistory]. *)
Definition handleResetClick (s : Session) : result Session :=
  saveHistory (with_canvases (clearCanvas (drawingCanvas s))
                             (clearCanvas (maskCanvas s)) s).

(** Nothing of the raster state differs between [s] and [s']. *)
Definition raster_same (s s' : Session) : Prop :=
  drawingCanvas s' = drawingCanvas s /\ maskCanvas s' = maskCanvas s /\
  history s' = history s /\ historyStep s' = historyStep s /\
  brushColor s' = brushColor s /\ mode s' = mode s.

Definition same_size (s s' : Session) : Prop :=
  width (drawingCanvas s') = width (drawingCanvas s) /\
  height (drawingCanvas s') = height (drawingCanvas s) /\
  width (maskCanvas s') = width (maskCanvas s) /\
  height (maskCanvas s') = height (maskCanvas s).

Lemma raster_same_inv s s' : raster_same s s' -> history_inv s -> history_inv s'.
Proof. intros (E1 & E2 & E3 & E4 & E5 & _). by apply history_inv_ext. Qed.

Lemma raster_same_synced s s' : raster_same s s' -> synced s -> synced s'.
Proof.
  intros (E1 & E2 & E3 & E4 & _). unfold synced, snapOf.
  by rewrite E1, E2, E3, E4.
Qed.

Lemma saveHistory_synced s s' :
  history_inv s -> saveHistory s = Ok s' ->
  history_inv s' /\ synced s' /\
  drawingCanvas s' = drawingCanvas s /\ maskCanvas s' = maskCanvas s /\
  mode s' = mode s /\ isDrawing s' = isDrawing s /\
  hasInteracted s' = hasInteracted s /\
  history s' = lastn 20 (take (Z.to_nat (historyStep s + 1)) (history s)
                         ++ [snapOf s]) /\
  historyStep s' = Z.of_nat (length (history s')) - 1.
Proof.
  intros HI E. destruct (history_inv_save s HI) as (s1 & E1 & HI1 & Hh & Hs & Hd & Hm).
  rewrite E1 in E. injection E as <-.
  assert (Hflags : mode s1 = mode s /\ isDrawing s1 = isDrawing s /\
                   hasInteracted s1 = hasInteracted s).
  { unfold saveHistory in E1.
    destruct (getImageData (drawingCanvas s) _ _); [|done..].
    destruct (getImageData (maskCanvas s) _ _); [|done..].
    cbn [mbind result_bind] in E1. injection E1 as <-. done. }
  destruct Hflags as (Hmo & Hf1 & Hf2).
  split; [done|]. split; [|done].
  unfold synced. rewrite Hs.
  assert (Hpos : (0 < length (history s1))%nat).
  { rewrite Hh, length_lastn, length_app. simpl. lia. }
  destruct (Z.ltb_spec (Z.of_nat (length (history s1)) - 1) 0); [lia|].
  replace (Z.to_nat (Z.of_nat (length (history s1)) - 1))
    with (pred (length (history s1))) by lia.
  rewrite <- last_lookup, Hh, last_lastn_snoc by lia.
  unfold snapOf. by rewrite Hd, Hm.
Qed.

Section Gestures.
Variable draw : Session -> PointerEvent -> list Z * list Z.
Hypothesis Hdraw : keeps_size draw.

(** The pan a drag leaves: the last pointer position minus the drag
    origin recorded at pointer-down. *)
Definition panAfter (s : Session) (down : PointerEvent)
    (moves : list PointerEvent) : Q * Q :=
  match last moves with
  | None => pan s
  | Some m =>
      ((fst (clientPos m) - (fst (clientPos down) - fst (pan s)))%Q,
       (snd (clientPos m) - (snd (clientPos down) - snd (pan s)))%Q)
  end.

Lemma drag_moves s moves : forall s1,
  mode s1 = move -> isDragging s1 = true -> raster_same s s1 ->
  let s2 := foldl (handleMouseMove draw) s1 moves in
  raster_same s s2 /\ dragStart s2 = dragStart s1 /\
  isDrawing s2 = isDrawing s1 /\ hasInteracted s2 = hasInteracted s1 /\
  zoom s2 = zoom s1 /\
  pan s2 = match last moves with
           | None => pan s1
           | Some m => ((fst (clientPos m) - fst (dragStart s1))%Q,
                        (snd (clientPos m) - snd (dragStart s1))%Q)
           end.
Proof.
  induction moves as [|e moves IH]; intros s1 Hm Hd Hs; [done|].
  cbn [foldl].
  assert (E : handleMouseMove draw s1 e
              = with_pan ((fst (clientPos e) - fst (dragStart s1))%Q,
                          (snd (clientPos e) - snd (dragStart s1))%Q) s1).
  { unfold handleMouseMove. by rewrite Hm, Hd. }
  rewrite E.
  destruct (IH (with_pan ((fst (clientPos e) - fst (dragStart s1))%Q,
                          (snd (clientPos e) - snd (dragStart s1))%Q) s1))
    as (R & D & F1 & F2 & Z & P); [done..|].
  simpl in D, F1, F2, Z, P.
  split; [done|]. repeat (split; [done|]).
  rewrite P. destruct moves as [|e' moves]; [done|].
  rewrite last_cons_cons. destruct (last (e' :: moves)) eqn:El; [done|].
  by apply last_None in El.
Qed.

(** A gesture with the move tool pans the view and nothing else: the
    layers, the history, the cursor, brush and tool stay as they were. *)
Lemma gesture_move s down moves :
  mode s = move -> isDrawing s = false ->
  exists s',
    gesture draw s down moves = Ok s' /\
    raster_same s s' /\ zoom s' = zoom s /\
    isDragging s' = false /\ isDrawing s' = false /\
    pan s' = panAfter s down moves.
Proof.
  intros Hm Hidle. unfold gesture, handleMouseDown. rewrite Hm.
  cbn [mbind result_bind].
  set (s1 := with_drag true _ s).
  destruct (drag_moves s moves s1) as (R & D & F1 & F2 & Z & P); try done.
  set (s2 := foldl (handleMouseMove draw) s1 moves) in *.
  unfold handleMouseUp. rewrite F1. simpl isDrawing. rewrite Hidle.
  cbn [andb mbind result_bind].
  eexists. split; [done|]. simpl.
  destruct R as (R1 & R2 & R3 & R4 & R5 & R6).
  split; [done|]. split; [done|]. split; [done|]. split; [done|].
  rewrite P. unfold panAfter. by destruct (last moves).
Qed.

Lemma bucket_moves moves : forall s1,
  mode s1 = bucket -> foldl (handleMouseMove draw) s1 moves = s1.
Proof.
  induction moves as [|e moves IH]; intros s1 Hm; [done|].
  cbn [foldl]. unfold handleMouseMove at 2. rewrite Hm. by apply IH.
Qed.

(** A gesture with the bucket tool is the click: the fill and one
    snapshot; moving and releasing the pointer add nothing. *)
Lemma gesture_bucket s down moves :
  history_inv s -> mode s = bucket -> isDrawing s = false ->
  exists s1 s2 s',
    handleBucketFill s (canvasPos down).1 (canvasPos down).2 = Ok s1 /\
    saveHistory s1 = Ok s2 /\
    gesture draw s down moves = Ok s' /\
    raster_same s2 s' /\ isDrawing s' = false /\
    history_inv s2 /\ synced s2 /\
    history s2 = lastn 20 (take (Z.to_nat (historyStep s + 1)) (history s)
                           ++ [snapOf s2]) /\
    historyStep s2 = Z.of_nat (length (history s2)) - 1.
Proof.
  intros HI Hm Hidle.
  destruct (bucket_click draw s down HI Hm)
    as (s1 & s2 & E1 & E2 & Hh & Hs & Hd & Hmk & _ & _).
  assert (Es : saveHistory s1 = Ok s2).
  { unfold handleMouseDown in E2. rewrite Hm in E2. simpl in E1.
    rewrite E1 in E2. exact E2. }
  pose proof (history_inv_bucket _ _ _ _ HI E1) as HI1.
  destruct (saveHistory_synced s1 s2 HI1 Es)
    as (HI2 & Hsy & _ & _ & Hmo & Hf1 & Hf2 & _ & _).
  assert (Hfl : mode s1 = mode s /\ isDrawing s1 = isDrawing s).
  { destruct (handleBucketFill_run s (canvasPos down).1 (canvasPos down).2
                (hi_wf _ HI)) as [[_ E] | (_ & out & _ & _ & E)];
      rewrite E in E1; injection E1 as <-; done. }
  destruct Hfl as [Hmo1 Hf11].
  exists s1, s2. eexists. split; [done|]. split; [done|].
  unfold gesture. rewrite E2. cbn [mbind result_bind].
  rewrite bucket_moves by congruence.
  unfold handleMouseUp. rewrite Hf1, Hf11, Hidle. cbn [andb mbind result_bind].
  split; [done|]. split; [by repeat split|]. split; [done|].
  split; [done|]. split; [done|]. split; [|done].
  rewrite Hh. do 3 f_equal. unfold snapOf. by rewrite Hd, Hmk.
Qed.

Lemma size_moves moves : forall s1,
  same_size s1 (foldl (handleMouseMove draw) s1 moves).
Proof.
  induction moves as [|e moves IH]; intros s1; [done|].
  cbn [foldl]. specialize (IH (handleMouseMove draw s1 e)).
  assert (H1 : same_size s1 (handleMouseMove draw s1 e)).
  { unfold handleMouseMove.
    destruct (mode s1), (isDragging s1), (isDrawing s1); done. }
  destruct H1 as (A1 & A2 & A3 & A4), IH as (B1 & B2 & B3 & B4).
  unfold same_size. by rewrite B1, B2, B3, B4.
Qed.

(** A stroke with a paint tool: besides what [gesture_paint] says, the
    layers keep their sizes, the result is synced and idle. *)
Lemma gesture_paint_synced s down moves :
  history_inv s -> paint_tool (mode s) ->
  exists s',
    gesture draw s down moves = Ok s' /\ history_inv s' /\ synced s' /\
    same_size s s' /\ mode s' = mode s /\ isDrawing s' = false /\
    history s' = lastn 20 (take (Z.to_nat (historyStep s + 1)) (history s)
                           ++ [snapOf s']) /\
    historyStep s' = Z.of_nat (length (history s')) - 1.
Proof using Hdraw.
  intros HI Ht.
  destruct (gesture_paint draw Hdraw s down moves HI Ht)
    as (s' & E & HI' & Hh & Hs & Hm & _).
  exists s'. split; [done|]. split; [done|].
  pose proof E as E0. unfold gesture in E.
  set (s1 := repaint (draw s down).1 (draw s down).2
               (with_drawing_flags true true s)) in *.
  assert (Hdown : handleMouseDown draw s down = Ok s1).
  { unfold handleMouseDown. by destruct Ht as [-> | [-> | ->]]. }
  rewrite Hdown in E. cbn [mbind result_bind] in E.
  pose proof (size_moves moves s1) as Hsz.
  set (s2 := foldl (handleMouseMove draw) s1 moves) in *.
  unfold handleMouseUp in E.
  destruct (if isDrawing s2 && hasInteracted s2 then saveHistory s2 else Ok s2)
    as [s3| |] eqn:E3; [|done..].
  cbn [mbind result_bind] in E. injection E as <-.
  assert (Hs3 : drawingCanvas s3 = drawingCanvas s2 /\ maskCanvas s3 = maskCanvas s2).
  { destruct (isDrawing s2 && hasInteracted s2).
    - unfold saveHistory in E3.
      destruct (getImageData (drawingCanvas s2) _ _); [|done..].
      destruct (getImageData (maskCanvas s2) _ _); [|done..].
      cbn [mbind result_bind] in E3. by injection E3 as <-.
    - by injection E3 as <-. }
  destruct Hs3 as [Hd3 Hm3].
  split.
  { unfold synced. simpl historyStep. simpl history.
    simpl in Hh, Hs. rewrite Hs.
    assert (Hpos : (0 < length (history s3))%nat).
    { rewrite Hh, length_lastn, length_app. simpl. lia. }
    destruct (Z.ltb_spec (Z.of_nat (length (history s3)) - 1) 0); [lia|].
    replace (Z.to_nat (Z.of_nat (length (history s3)) - 1))
      with (pred (length (history s3))) by lia.
    rewrite <- last_lookup. rewrite Hh at 1. by rewrite last_lastn_snoc by lia. }
  split.
  { destruct Hsz as (A1 & A2 & A3 & A4).
    unfold same_size. simpl. rewrite Hd3, Hm3, A1, A2, A3, A4. done. }
  done.
Qed.
End Gestures.

(** ** Sessions the controls can reach *)

(** Sessions reached from a loaded image by whole gestures, the Undo and
    Reset buttons, and the tool and colour controls; [draw] is the
    rasteriser the strokes use. *)
Inductive ui_reachable (draw : Session -> PointerEvent -> list Z * list Z)
  : Session -> Prop :=
| ui_loaded w h : 0 < w -> 0 < h -> ui_reachable draw (loaded w h)
| ui_gesture s down moves s' :
    ui_reachable draw s -> gesture draw s down moves = Ok s' ->
    ui_reachable draw s'
| ui_undo s s' :
    ui_reachable draw s -> handleUndo s = Ok s' -> ui_reachable draw s'
| ui_reset s s' :
    ui_reachable draw s -> handleResetClick s = Ok s' -> ui_reachable draw s'
| ui_tool s m : ui_reachable draw s -> ui_reachable draw (setMode m s)
| ui_colour s c :
    ui_reachable draw s -> byte_color c -> ui_reachable draw (setBrushColor c s).

Lemma handleUndo_synced s s' :
  history_inv s -> synced s -> handleUndo s = Ok s' ->
  history_inv s' /\ synced s' /\ isDrawing s' = isDrawing s /\
  mode s' = mode s /\ same_size s s'.
Proof.
  intros HI Hsy E.
  assert (HI' : history_inv s').
  { destruct (history_inv_undo s HI) as (s1 & E1 & HI1). congruence. }
  split; [done|].
  destruct (Z.lt_trichotomy (historyStep s) 0) as [Hneg | [H0 | Hpos]].
  - rewrite handleUndo_before_first in E by done. injection E as <-.
    by repeat split.
  - rewrite handleUndo_first in E by done. injection E as <-.
    split; [|by repeat split].
    unfold synced. simpl. split; apply clearCanvas_transparent.
  - destruct (handleUndo_back s HI Hpos) as (p & Hp & E1).
    rewrite E1 in E. injection E as <-.
    pose proof (proj1 (Forall_lookup _ _) (hi_fits _ HI) _ _ Hp)
      as (_ & _ & F1 & F2 & F3 & F4).
    split; [|by repeat split].
    unfold synced. simpl.
    destruct (Z.ltb_spec (historyStep s - 1) 0); [lia|].
    rewrite Hp. by destruct p.
Qed.

Lemma handleResetClick_synced s s' :
  history_inv s -> handleResetClick s = Ok s' ->
  history_inv s' /\ synced s' /\ isDrawing s' = isDrawing s /\
  mode s' = mode s /\ same_size s s' /\
  all_transparent (drawingCanvas s') /\ all_transparent (maskCanvas s') /\
  history s' = lastn 20 (take (Z.to_nat (historyStep s + 1)) (history s)
                         ++ [snapOf s']) /\
  historyStep s' = Z.of_nat (length (history s')) - 1.
Proof.
  intros HI E. unfold handleResetClick in E.
  destruct (hi_wf _ HI) as (Hd & Hm & Ew & Eh & Hc).
  assert (HI0 : history_inv (with_canvases (clearCanvas (drawingCanvas s))
                               (clearCanvas (maskCanvas s)) s)).
  { apply history_inv_layers; try done; by apply clearCanvas_wf. }
  destruct (saveHistory_synced _ _ HI0 E)
    as (HI' & Hsy & Hd' & Hm' & Hmo & Hf1 & _ & Hh & Hs).
  split; [done|]. split; [done|]. split; [done|]. split; [done|].
  split; [unfold same_size; by rewrite Hd', Hm'|].
  split; [rewrite Hd'; apply clearCanvas_transparent|].
  split; [rewrite Hm'; apply clearCanvas_transparent|].
  split; [|done]. rewrite Hh. do 3 f_equal. unfold snapOf. by rewrite Hd', Hm'.
Qed.

Section UiInvariant.
Variable draw : Session -> PointerEvent -> list Z * list Z.
Hypothesis Hdraw : keeps_size draw.

Lemma ui_reachable_inv s :
  ui_reachable draw s ->
  history_inv s /\ synced s /\ isDrawing s = false.
Proof using Hdraw.
  induction 1 as [w h Hw Hh | s down moves s' _ IH E | s s' _ IH E
                 | s s' _ IH E | s m _ IH | s c _ IH Hc].
  - split; [apply reachable_inv; by apply reachable_loaded|]. by split.
  - destruct IH as (HI & Hsy & Hidle).
    destruct (mode s) eqn:Hm.
    + destruct (gesture_move draw s down moves Hm Hidle)
        as (s1 & E1 & R & _ & _ & Hid & _).
      rewrite E1 in E. injection E as <-.
      split; [by apply (raster_same_inv s)|].
      split; [by apply (raster_same_synced s)|done].
    + destruct (gesture_paint_synced draw Hdraw s down moves HI)
        as (s1 & E1 & HI1 & Hsy1 & _ & _ & Hid & _); [left; done|].
      rewrite E1 in E. by injection E as <-.
    + destruct (gesture_bucket draw s down moves HI Hm Hidle)
        as (s1 & s2 & s3 & _ & _ & E1 & R & Hid & HI2 & Hsy2 & _).
      rewrite E1 in E. injection E as <-.
      split; [by apply (raster_same_inv s2)|].
      split; [by apply (raster_same_synced s2)|done].
    + destruct (gesture_paint_synced draw Hdraw s down moves HI)
        as (s1 & E1 & HI1 & Hsy1 & _ & _ & Hid & _); [right; right; done|].
      rewrite E1 in E. by injection E as <-.
    + destruct (gesture_paint_synced draw Hdraw s down moves HI)
        as (s1 & E1 & HI1 & Hsy1 & _ & _ & Hid & _); [right; left; done|].
      rewrite E1 in E. by injection E as <-.
  - destruct IH as (HI & Hsy & Hidle).
    destruct (handleUndo_synced s s' HI Hsy E) as (HI' & Hsy' & Hid & _).
    split; [done|]. split; [done|]. congruence.
  - destruct IH as (HI & Hsy & Hidle).
    destruct (handleResetClick_synced s s' HI E) as (HI' & Hsy' & Hid & _).
    split; [done|]. split; [done|]. congruence.
  - destruct IH as (HI & Hsy & Hidle).
    split; [by apply (history_inv_ext s)|]. by split.
  - destruct IH as (HI & Hsy & Hidle).
    split; [by apply (history_inv_settings s move c)|]. by split.
Qed.

(** Between two operations of the editor the layers are what the cursor
    points at: with the cursor at [k >= 0] they are exactly the bitmaps
    of snapshot [k], with the cursor at -1 they are blank; the cursor is
    within [-1 .. length - 1] and no stroke is in progress. *)
Theorem layers_match_cursor s :
  ui_reachable draw s ->
  -1 <= historyStep s < Z.of_nat (length (history s)) /\
  isDrawing s = false /\
  (0 <= historyStep s ->
   exists p, history s !! Z.to_nat (historyStep s) = Some p /\
             drawingCanvas s = drawing p /\ maskCanvas s = mask p) /\
  (historyStep s = -1 ->
   all_transparent (drawingCanvas s) /\ all_transparent (maskCanvas s)).
Proof using Hdraw.
  intros Hui. destruct (ui_reachable_inv s Hui) as (HI & Hsy & Hidle).
  destruct HI as [_ Hlow Hhigh _ _]. split; [lia|]. split; [done|].
  unfold synced in Hsy. split.
  - intros Hk. destruct (Z.ltb_spec (historyStep s) 0); [lia|].
    exists (snapOf s). by split.
  - intros Hk. rewrite Hk in Hsy. exact Hsy.
Qed.
End UiInvariant.

(** ** Undo brings back what was there *)

(** Undo right after a push made from a synced session gives back that
    session's layers. *)
Lemma push_undo_restores s s' x :
  history_inv s -> synced s -> history_inv s' -> same_size s s' ->
  history s' = lastn 20 (take (Z.to_nat (historyStep s + 1)) (history s) ++ [x]) ->
  historyStep s' = Z.of_nat (length (history s')) - 1 ->
  exists s'',
    handleUndo s' = Ok s'' /\
    drawingCanvas s'' = drawingCanvas s /\ maskCanvas s'' = maskCanvas s /\
    (historyStep s < 19 -> historyStep s'' = historyStep s).
Proof.
  intros HI Hsy HI' (Z1 & Z2 & Z3 & Z4) Hh Hs.
  pose proof HI as [Hwf Hlow Hhigh Hcap _]. unfold HISTORY_CAP in Hcap.
  unfold synced in Hsy.
  destruct (Z.ltb_spec (historyStep s) 0) as [Hneg | Hnn].
  - assert (Hk : historyStep s = -1) by lia. rewrite Hk in Hh.
    simpl in Hh. rewrite lastn_short in Hh by (simpl; lia).
    rewrite Hh in Hs. simpl in Hs.
    rewrite handleUndo_first by done. eexists. split; [done|]. simpl.
    destruct Hsy as [T1 T2]. destruct Hwf as (Hd & Hm & _).
    split; [|split; [|lia]].
    + rewrite <- (clearCanvas_blank (drawingCanvas s)) by done.
      unfold clearCanvas. by rewrite Z1, Z2.
    + rewrite <- (clearCanvas_blank (maskCanvas s)) by done.
      unfold clearCanvas. by rewrite Z3, Z4.
  - destruct (undo_after_push s s' x HI HI' Hnn Hh Hs)
      as (p & s'' & Hp & E & Hd & Hm & _ & Hs'').
    rewrite Hsy in Hp. injection Hp as <-.
    exists s''. split; [done|]. split; [done|]. split; [done|].
    intros Hlt. rewrite Hs'', Hs, Hh, length_lastn, length_app, length_take.
    simpl. lia.
Qed.

Lemma handleBucketFill_frame s x0 y0 s' :
  wf_session s -> handleBucketFill s x0 y0 = Ok s' ->
  maskCanvas s' = maskCanvas s /\
  width (drawingCanvas s') = width (drawingCanvas s) /\
  height (drawingCanvas s') = height (drawingCanvas s).
Proof.
  intros Hwf E.
  destruct (handleBucketFill_run s x0 y0 Hwf) as [[_ E1] | (_ & out & _ & _ & E1)];
    rewrite E1 in E; by injection E as <-.
Qed.

(** The Reset button from a synced session: the layers are blanked, one
    snapshot is pushed, and Undo brings the layers back. *)
Lemma reset_then_undo s :
  history_inv s -> synced s ->
  exists s1 s2,
    handleResetClick s = Ok s1 /\ history_inv s1 /\ same_size s s1 /\
    mode s1 = mode s /\
    all_transparent (drawingCanvas s1) /\ all_transparent (maskCanvas s1) /\
    history s1 = lastn 20 (take (Z.to_nat (historyStep s + 1)) (history s)
                           ++ [snapOf s1]) /\
    historyStep s1 = Z.of_nat (length (history s1)) - 1 /\
    handleUndo s1 = Ok s2 /\
    drawingCanvas s2 = drawingCanvas s /\ maskCanvas s2 = maskCanvas s.
Proof.
  intros HI Hsy.
  destruct (hi_wf _ HI) as (Hd & Hm & _).
  assert (HI0 : history_inv (with_canvases (clearCanvas (drawingCanvas s))
                               (clearCanvas (maskCanvas s)) s)).
  { apply history_inv_layers; try done; by apply clearCanvas_wf. }
  destruct (history_inv_save _ HI0) as (s1 & E & _).
  destruct (handleResetClick_synced s s1 HI E)
    as (HI1 & _ & _ & Hmo & Hsz & T1 & T2 & Hh & Hs).
  destruct (push_undo_restores s s1 _ HI Hsy HI1 Hsz Hh Hs)
    as (s2 & E2 & R1 & R2 & _).
  exists s1, s2. repeat (split; [done|]). done.
Qed.

Section UndoRoundTrip.
Variable draw : Session -> PointerEvent -> list Z * list Z.
Hypothesis Hdraw : keeps_size draw.



(** From cursor [k >= 0], [k + 1] presses of Undo end at cursor -1 with
    both layers blank; the stored snapshots are all still there. *)
Theorem undo_all_the_way_blanks s :
  ui_reachable draw s -> 0 <= historyStep s ->
  exists s',
    undoTimes (Z.to_nat (historyStep s + 1)) s = Ok s' /\
    historyStep s' = -1 /\ history s' = history s /\
    all_transparent (drawingCanvas s') /\ all_transparent (maskCanvas s').
Proof using Hdraw.
  intros Hui.
  destruct (ui_reachable_inv draw Hdraw s Hui) as (HI & _ & _).
  clear Hui. revert HI.
  remember (Z.to_nat (historyStep s)) as n eqn:Hn.
  revert s Hn. induction n as [|n IH]; intros s Hn HI Hk.
  - assert (H0 : historyStep s = 0) by lia. rewrite H0. simpl.
    rewrite handleUndo_first by done. cbn [mbind result_bind].
    eexists. split; [done|]. simpl. split; [done|]. split; [done|].
    split; apply clearCanvas_transparent.
  - replace (Z.to_nat (historyStep s + 1)) with (S (S n)) by lia.
    cbn [undoTimes].
    destruct (handleUndo_back s HI ltac:(lia)) as (p & Hp & E). rewrite E.
    cbn [mbind result_bind].
    set (s1 := with_history _ _ _).
    assert (HI1 : history_inv s1).
    { destruct (history_inv_undo s HI) as (s1' & E' & HI').
      rewrite E in E'. injection E' as <-. exact HI'. }
    destruct (IH s1) as (s' & E1 & R); [simpl; lia | done | simpl; lia |].
    replace (Z.to_nat (historyStep s1 + 1)) with (S n) in E1 by (simpl; lia).
    exists s'. split; [done|]. exact R.
Qed.
End UndoRoundTrip.

(** A drag with the move tool touches neither layer nor the history; the
    pan it leaves is the last pointer position minus the drag origin,
    which over the rationals is the old pan plus the pointer's
    displacement. *)
Theorem move_gesture_only_pans draw s down moves :
  mode s = move -> isDrawing s = false ->
  exists s',
    gesture draw s down moves = Ok s' /\
    drawingCanvas s' = drawingCanvas s /\ maskCanvas s' = maskCanvas s /\
    history s' = history s /\ historyStep s' = historyStep s /\
    zoom s' = zoom s /\ pan s' = panAfter s down moves /\
    forall m, last moves = Some m ->
      (fst (pan s') == fst (pan s) + (fst (clientPos m) - fst (clientPos down)))%Q /\
      (snd (pan s') == snd (pan s) + (snd (clientPos m) - snd (clientPos down)))%Q.
Proof.
  intros Hm Hidle.
  destruct (gesture_move draw s down moves Hm Hidle)
    as (s' & E & (R1 & R2 & R3 & R4 & _) & Z & _ & _ & P).
  exists s'. repeat (split; [done|]).
  intros m Hlast. rewrite P. unfold panAfter. rewrite Hlast. simpl.
  split; ring.
Qed.

Lemma move_gesture_only_pans_witness :
  exists s',
    gesture noInk (loaded 2 1) (mkPointerEvent (10, 20)%Q (0, 0))
            [mkPointerEvent (13, 18)%Q (0, 0)] = Ok s' /\
    drawingCanvas s' = drawingCanvas (loaded 2 1) /\
    maskCanvas s' = maskCanvas (loaded 2 1) /\
    history s' = history (loaded 2 1) /\
    historyStep s' = historyStep (loaded 2 1) /\
    zoom s' = zoom (loaded 2 1) /\
    pan s' = panAfter (loaded 2 1) (mkPointerEvent (10, 20)%Q (0, 0))
                      [mkPointerEvent (13, 18)%Q (0, 0)] /\
    forall m, last [mkPointerEvent (13, 18)%Q (0, 0)] = Some m ->
      (fst (pan s') == fst (pan (loaded 2 1)) + (fst (clientPos m) - 10))%Q /\
      (snd (pan s') == snd (pan (loaded 2 1)) + (snd (clientPos m) - 20))%Q.
Proof.
  apply (move_gesture_only_pans noInk (loaded 2 1)
           (mkPointerEvent (10, 20)%Q (0, 0))); reflexivity.
Defined.

Lemma keeps_size_noInk : keeps_size noInk.
Proof. intros s e. split; reflexivity. Qed.

Lemma layers_match_cursor_witness :
  -1 <= historyStep (loaded 2 1) < Z.of_nat (length (history (loaded 2 1))) /\
  isDrawing (loaded 2 1) = false /\
  (0 <= historyStep (loaded 2 1) ->
   exists p, history (loaded 2 1) !! Z.to_nat (historyStep (loaded 2 1)) = Some p /\
             drawingCanvas (loaded 2 1) = drawing p /\
             maskCanvas (loaded 2 1) = mask p) /\
  (historyStep (loaded 2 1) = -1 ->
   all_transparent (drawingCanvas (loaded 2 1)) /\
   all_transparent (maskCanvas (loaded 2 1))).
Proof.
  apply (layers_match_cursor noInk).
  - intros s e. split; reflexivity.
  - apply ui_loaded; lia.
Defined.



Lemma undo_all_the_way_blanks_witness :
  exists s',
    undoTimes (Z.to_nat (historyStep (loaded 2 1) + 1)) (loaded 2 1) = Ok s' /\
    historyStep s' = -1 /\ history s' = history (loaded 2 1) /\
    all_transparent (drawingCanvas s') /\ all_transparent (maskCanvas s').
Proof.
  apply (undo_all_the_way_blanks noInk).
  - intros s e. split; reflexivity.
  - apply ui_loaded; lia.
  - simpl. lia.
Defined.

(** ** AI edit *)

Inductive Alert := AlertReupload | AlertGenerateFailed | AlertNoFaces.

(** [imageSource]: a [File], a URL string, or [null]. *)
Inductive ImageSource := SourceFile | SourceUrl | SourceNull.

Definition with_view (z : Q) (p : Q * Q) (s : Session) : Session :=
  mkSession (drawingCanvas s) (maskCanvas s) (history s) (historyStep s)
            (mode s) (brushColor s) p z (isDragging s)
            (dragStart s) (isDrawing s) (hasInteracted s).

(** [handleAiEdit] from the session [s] of the render that created the
    handler.  [generated] is what [onAiEdit] resolved to, [None] when it
    rejected.  The result is the session after the handler, the new
    [imgSrc] if one was set, and the alerts shown.

    [setHistory([])] and [setHistoryStep(-1)] are followed, in the same
    handler, by [saveHistory()], which computes the new history from the
    [history] and [historyStep] the handler closed over and sets it: that
    later value is the one the state ends with.  When [saveHistory]
    throws instead, the [catch] runs with the earlier setters applied. *)
Definition handleAiEdit {Img : Type} (imageSource : ImageSource)
    (generated : option Img) (s : Session)
  : Session * option Img * list Alert :=
  match imageSource with
  | SourceNull | SourceUrl => (s, None, [AlertReupload])
  | SourceFile =>
      match generated with
      | None => (s, None, [AlertGenerateFailed])
      | Some resultBase64 =>
          let cleared :=
            with_canvases (clearCanvas (drawingCanvas s))
                          (clearCanvas (maskCanvas s)) s in
          match saveHistory cleared with
          | Ok s' =>
              (with_view 1 (0, 0)%Q (setMode move s'), Some resultBase64, [])
          | _ =>
              (with_view 1 (0, 0)%Q (setMode move (with_history [] (-1) cleared)),
               Some resultBase64, [AlertGenerateFailed])
          end
      end
  end.



(** Without a fresh file, or when the generation fails, [handleAiEdit]
    changes nothing and shows an alert. *)
Example ai_edit_refused s :
  handleAiEdit (Img := unit) SourceUrl (Some tt) s = (s, None, [AlertReupload]) /\
  handleAiEdit (Img := unit) SourceNull (Some tt) s = (s, None, [AlertReupload]) /\
  handleAiEdit (Img := unit) SourceFile None s = (s, None, [AlertGenerateFailed]).
Proof. done. Qed.

(** ** Face masks *)

From Stdlib Require Import Lqa.

(** [boundingBox] of a detected face, in image pixels. *)
Record Box := mkBox { boxLeft : Q; boxTop : Q; boxWidth : Q; boxHeight : Q }.

(** A face found by the AI collaborator, normalised to [0, 1]. *)
Record FaceBox := mkFaceBox { ymin : Q; xmin : Q; ymax : Q; xmax : Q }.

(** Arguments of [ctx.ellipse] (no rotation, the full angle). *)
Record Ellipse := mkEllipse {
  centerX : Q; centerY : Q; radiusX : Q; radiusY : Q
}.

(** The normalised box scaled to the image's natural size. *)
Definition aiBox (naturalWidth naturalHeight : Z) (f : FaceBox) : Box :=
  mkBox (xmin f * inject_Z naturalWidth)
        (ymin f * inject_Z naturalHeight)
        ((xmax f - xmin f) * inject_Z naturalWidth)
        ((ymax f - ymin f) * inject_Z naturalHeight).

(** The ellipse drawn for one face (lines 426-440). *)
Definition faceEllipse (b : Box) : Ellipse :=
  let paddingX := (boxWidth b * 0.1)%Q in
  let paddingY := (boxHeight b * 0.2)%Q in
  let centerX := (boxLeft b + boxWidth b / 2)%Q in
  let centerY := (boxTop b + boxHeight b / 2 - boxHeight b * 0.05)%Q in
  let radiusX := (boxWidth b / 2 + paddingX)%Q in
  let radiusY := (boxHeight b / 2 + paddingY)%Q in
  mkEllipse centerX centerY radiusX radiusY.

(** The faces [handleFaceDetect] draws: the system detector's when it
    found any, else the AI's; [None] stands for a detector that is
    missing or failed. *)
Definition detectedBoxes (natural : Z * Z) (systemFaces : option (list Box))
    (aiFaces : option (list FaceBox)) : list Box :=
  match systemFaces with
  | Some (b :: bs) => b :: bs
  | _ =>
      match aiFaces with
      | Some (f :: fs) => map (aiBox (fst natural) (snd natural)) (f :: fs)
      | _ => []
      end
  end.

Section FaceDetect.
(** [ctx.beginPath(); ctx.ellipse(..); ctx.fill()] on the mask layer with
    the mask colour: the browser's rasteriser, a parameter.  It gets the
    bytes and the size of the layer. *)
Variable fillEllipse : list Z -> Z -> Z -> Ellipse -> list Z.

Definition handleFaceDetect (natural : Z * Z)
    (systemFaces : option (list Box)) (aiFaces : option (list FaceBox))
    (s : Session) : result Session * list Alert :=
  match detectedBoxes natural systemFaces aiFaces with
  | [] => (Ok s, [AlertNoFaces])
  | facesData =>
      let m := maskCanvas s in
      let painted :=
        foldl (fun px face => fillEllipse px (width m) (height m) (faceEllipse face))
              (data m) facesData in
      (saveHistory (repaint (data (drawingCanvas s)) painted s), [])
  end.

Hypothesis fillEllipse_length :
  forall px w h e, length (fillEllipse px w h e) = length px.

Lemma painted_length (faces : list Box) w h : forall px,
  length (foldl (fun px face => fillEllipse px w h (faceEllipse face)) px faces)
  = length px.
Proof using fillEllipse_length.
  induction faces as [|f faces IH]; intros px; [done|].
  simpl. by rewrite IH, fillEllipse_length.
Qed.

End FaceDetect.




(** * The speaker board

    The state and handlers of [App] (src/unnamed/part_000) that decide
    which speakers are lit. *)

From stdpp Require Import strings gmap pretty sorting.

Record SpeakerProfile := mkSpeakerProfile {
  id : string;
  name : string;
  imageUrl : option string;
  color : string;
  triggerKey : option string
}.

Record SpeakerSegment := mkSpeakerSegment {
  speaker : string;
  start : Q;
  end_ : Q            (* [end] *)
}.

Record AnalysisResult := mkAnalysisResult {
  uniqueSpeakers : list string;
  segments : list SpeakerSegment
}.

Inductive DetectionMode := auto | manual.

(** [Array.from(new Set(xs))]: the distinct elements in the order of
    their first occurrence. *)
Definition distinct (xs : list string) : list string :=
  foldl (fun acc x => if decide (x ∈ acc) then acc else acc ++ [x]) [] xs.

(** [currentTime >= seg.start && currentTime <= seg.end]. *)
Definition covers (currentTime : Q) (seg : SpeakerSegment) : bool :=
  Qle_bool (start seg) currentTime && Qle_bool currentTime (end_ seg).

Section TimeUpdate.
(** [[...xs].sort()] with the default comparator. *)
Variable sort : list string -> list string.

(** [sortedPrev.every((val, index) => val === sortedCurr[index])]. *)
Definition everyEqual (sortedPrev sortedCurr : list string) : bool :=
  forallb (fun iv => bool_decide (sortedCurr !! (fst iv) = Some (snd iv)))
          (imap pair sortedPrev).

(** The updater passed to [setActiveSpeakerIds]. *)
Definition nextActive (currentActiveIds prev : list string) : list string :=
  if bool_decide (length prev <> length currentActiveIds) then currentActiveIds
  else if everyEqual (sort prev) (sort currentActiveIds) then prev
       else currentActiveIds.

(** [handleTimeUpdate]: the value of [activeSpeakerIds] after the call,
    [prev] being its value before. *)
Definition handleTimeUpdate (detectionMode : DetectionMode)
    (analysisResult : option AnalysisResult) (currentTime : Q)
    (prev : list string) : list string :=
  match detectionMode with
  | manual => prev
  | auto =>
      match analysisResult with
      | None => prev
      | Some r =>
          let activeSegments := List.filter (covers currentTime) (segments r) in
          let currentActiveIds := distinct (map speaker activeSegments) in
          nextActive currentActiveIds prev
      end
  end.
End TimeUpdate.

Lemma distinct_go_elem (xs : list string) : forall acc x,
  x ∈ foldl (fun acc x => if decide (x ∈ acc) then acc else acc ++ [x]) acc xs
  <-> x ∈ acc \/ x ∈ xs.
Proof.
  induction xs as [|y xs IH]; intros acc x; simpl.
  - rewrite elem_of_nil. tauto.
  - rewrite IH, elem_of_cons. destruct (decide (y ∈ acc)) as [Hy|Hy].
    + split; [tauto|]. intros [?|[->|?]]; tauto.
    + rewrite elem_of_app, list_elem_of_singleton. tauto.
Qed.

Lemma distinct_go_NoDup (xs : list string) : forall acc,
  NoDup acc ->
  NoDup (foldl (fun acc x => if decide (x ∈ acc) then acc else acc ++ [x]) acc xs).
Proof.
  induction xs as [|y xs IH]; intros acc Hacc; simpl; [done|].
  apply IH. destruct (decide (y ∈ acc)) as [Hy|Hy]; [done|].
  apply NoDup_app. split; [done|]. split; [|apply NoDup_singleton].
  intros z Hz Hz'. apply list_elem_of_singleton in Hz'. by subst.
Qed.

Lemma distinct_elem xs x : x ∈ distinct xs <-> x ∈ xs.
Proof. unfold distinct. rewrite distinct_go_elem, elem_of_nil. tauto. Qed.

Lemma distinct_NoDup xs : NoDup (distinct xs).
Proof. apply distinct_go_NoDup. constructor. Qed.

Lemma everyEqual_spec sort_prev sort_curr :
  length sort_prev = length sort_curr ->
  everyEqual sort_prev sort_curr = true <-> sort_prev = sort_curr.
Proof.
  intros Hlen. unfold everyEqual. rewrite forallb_forall. split.
  - intros Hall. apply list_eq. intros i.
    destruct (sort_prev !! i) as [v|] eqn:Hv.
    + symmetry. specialize (Hall (i, v)). simpl in Hall.
      apply bool_decide_eq_true in Hall; [done|].
      apply list_elem_of_In, elem_of_lookup_imap. by exists i, v.
    + symmetry. apply lookup_ge_None. apply lookup_ge_None in Hv. lia.
  - intros <- [i v] Hin. simpl. apply bool_decide_eq_true.
    apply list_elem_of_In, elem_of_lookup_imap in Hin as (j & w & [= -> ->] & Hw).
    done.
Qed.

Section TimeUpdateTheory.
Variable sort : list string -> list string.
Hypothesis sort_perm : forall l, sort l ≡ₚ l.
Hypothesis sort_canon : forall l l', l ≡ₚ l' -> sort l = sort l'.

Lemma nextActive_spec cur prev :
  (prev ≡ₚ cur -> nextActive sort cur prev = prev) /\
  (~ prev ≡ₚ cur -> nextActive sort cur prev = cur).
Proof using sort_perm sort_canon.
  unfold nextActive. case_bool_decide as Hlen.
  - split; [|done]. intros Hp. by apply Permutation_length in Hp.
  - assert (Hl : length prev = length cur) by (destruct (decide (length prev = length cur)); [done|by destruct Hlen]).
    assert (Hls : length (sort prev) = length (sort cur)).
    { by rewrite (Permutation_length (sort_perm prev)),
        (Permutation_length (sort_perm cur)). }
    destruct (everyEqual (sort prev) (sort cur)) eqn:E.
    + split; [done|]. intros Hn. destruct Hn.
      apply everyEqual_spec in E; [|done].
      by rewrite <- (sort_perm prev), E, sort_perm.
    + split; [|done]. intros Hp. apply sort_canon in Hp.
      apply everyEqual_spec in Hp; [|done]. congruence.
Qed.

(** In auto mode with an analysis, after a time update the lit speakers
    are exactly the speakers with a segment covering the current time,
    each once.  When that set is the one already lit, the previous list
    is kept as it is (the same array, so nothing re-renders); otherwise
    the new list is the distinct speakers in segment order. *)
Theorem time_update_lights_covering_speakers r currentTime prev :
  let cur := distinct (map speaker (List.filter (covers currentTime) (segments r))) in
  let next := handleTimeUpdate sort auto (Some r) currentTime prev in
  next ≡ₚ cur /\ NoDup next /\
  (forall sp, sp ∈ next <->
     exists seg, seg ∈ segments r /\ speaker seg = sp /\
                 (start seg <= currentTime)%Q /\ (currentTime <= end_ seg)%Q) /\
  (prev ≡ₚ cur -> next = prev) /\
  (~ prev ≡ₚ cur -> next = cur).
Proof using sort_perm sort_canon.
  intros cur next.
  destruct (nextActive_spec cur prev) as [Hkeep Hnew].
  assert (Hperm : next ≡ₚ cur).
  { subst next. unfold handleTimeUpdate. fold cur.
    destruct (decide (prev ≡ₚ cur)) as [Hp|Hp].
    - by rewrite Hkeep.
    - by rewrite Hnew. }
  split; [done|]. split; [rewrite Hperm; apply distinct_NoDup|].
  split; [|done].
  intros sp. rewrite Hperm. subst cur. rewrite distinct_elem, list_elem_of_fmap.
  split.
  - intros (seg & -> & Hin). exists seg.
    apply list_elem_of_In, filter_In in Hin as [Hin Hc].
    apply andb_true_iff in Hc as [H1 H2]. apply Qle_bool_iff in H1, H2.
    split; [by apply list_elem_of_In|done].
  - intros (seg & Hin & <- & H1 & H2). exists seg. split; [done|].
    apply list_elem_of_In, filter_In. split; [by apply list_elem_of_In|].
    apply andb_true_iff. split; by apply Qle_bool_iff.
Qed.
End TimeUpdateTheory.

Lemma merge_sort_canon (l l' : list string) :
  l ≡ₚ l' -> merge_sort String.le l = merge_sort String.le l'.
Proof.
  intros Hp. apply (StronglySorted_unique String.le).
  - apply StronglySorted_merge_sort; apply _.
  - apply StronglySorted_merge_sort; apply _.
  - by rewrite !merge_sort_Permutation.
Qed.

(** Two speakers overlap at second 4; a third segment repeats the first
    speaker. *)
Definition overlapResult : AnalysisResult :=
  mkAnalysisResult ["A"; "B"]
    [mkSpeakerSegment "A" 0 5; mkSpeakerSegment "B" 3 8; mkSpeakerSegment "A" 4 6].

Lemma time_update_lights_covering_speakers_witness :
  let cur := distinct (map speaker
                         (List.filter (covers 4) (segments overlapResult))) in
  let next := handleTimeUpdate (merge_sort String.le) auto (Some overlapResult)
                               4 ["B"; "A"] in
  next ≡ₚ cur /\ NoDup next /\
  (forall sp, sp ∈ next <->
     exists seg, seg ∈ segments overlapResult /\ speaker seg = sp /\
                 (start seg <= 4)%Q /\ (4 <= end_ seg)%Q) /\
  (["B"; "A"] ≡ₚ cur -> next = ["B"; "A"]) /\
  (~ ["B"; "A"] ≡ₚ cur -> next = cur).
Proof.
  apply (time_update_lights_covering_speakers (merge_sort String.le)).
  - intros l. apply merge_sort_Permutation.
  - apply merge_sort_canon.
Defined.

Example time_update_keeps_previous_order :
  handleTimeUpdate (merge_sort String.le) auto (Some overlapResult) 4 ["B"; "A"]
  = ["B"; "A"] /\
  handleTimeUpdate (merge_sort String.le) auto (Some overlapResult) 4 ["A"]
  = ["A"; "B"] /\
  handleTimeUpdate (merge_sort String.le) auto (Some overlapResult) 7 ["A"; "B"]
  = ["B"] /\
  handleTimeUpdate (merge_sort String.le) auto (Some overlapResult) 9 ["B"]
  = [].
Proof. vm_compute. done. Qed.

(** ** Manual mode *)

Section Manual.
(** [generateSpeakerColor] computes a hex colour with floating point; it
    is a parameter.  So is [String.prototype.toLowerCase]. *)
Variable generateSpeakerColor : nat -> string.
Variable toLowerCase : string -> string.

Definition keys : list string := ["1"; "2"; "3"; "4"; "5"; "6"; "7"; "8"; "9"].

(** The speakers [startProcess] generates in manual mode. *)
Definition manualSpeakers (manualSpeakerCount : nat) : list SpeakerProfile :=
  map (fun i =>
         let key := default "?" (keys !! i) in
         mkSpeakerProfile ("manual_" +:+ pretty i)
                          ("Speaker " +:+ pretty (i + 1)%nat)
                          None (generateSpeakerColor i) (Some key))
      (seq 0 manualSpeakerCount).

(** [handleKeyDown] and [handleKeyUp] on [manualActiveKeys]. *)
Definition handleKeyDown (key : string) (prev : gset string) : gset string :=
  {[ toLowerCase key ]} ∪ prev.

Definition handleKeyUp (key : string) (prev : gset string) : gset string :=
  prev ∖ {[ toLowerCase key ]}.

(** [s.triggerKey && manualActiveKeys.has(s.triggerKey.toLowerCase())]:
    a missing or empty key is falsy. *)
Definition keyHeld (manualActiveKeys : gset string) (s : SpeakerProfile) : bool :=
  match triggerKey s with
  | Some k =>
      if decide (k = "") then false
      else bool_decide (toLowerCase k ∈ manualActiveKeys)
  | None => false
  end.

(** The active ids the effect computes from the held keys. *)
Definition manualActiveIds (manualActiveKeys : gset string)
    (speakers : list SpeakerProfile) : list string :=
  map id (List.filter (keyHeld manualActiveKeys) speakers).

Lemma manualSpeakers_lookup n i :
  (i < n)%nat ->
  manualSpeakers n !! i
  = Some (mkSpeakerProfile ("manual_" +:+ pretty i)
            ("Speaker " +:+ pretty (i + 1)%nat) None
            (generateSpeakerColor i) (Some (default "?" (keys !! i)))).
Proof.
  intros Hi. unfold manualSpeakers. rewrite list_lookup_fmap.
  by rewrite lookup_seq_lt.
Qed.

Lemma manualSpeakers_ids n :
  map id (manualSpeakers n) = map (fun i => "manual_" +:+ pretty i) (seq 0 n).
Proof.
  unfold manualSpeakers. rewrite <- list_fmap_compose. done.
Qed.

Lemma manualSpeakers_NoDup n : NoDup (map id (manualSpeakers n)).
Proof.
  rewrite manualSpeakers_ids. apply NoDup_fmap_2; [|apply NoDup_seq].
  intros i j Hij. apply (inj (String.app "manual_")) in Hij.
  by apply (inj pretty) in Hij.
Qed.

Lemma keys_nonempty i : default "?" (keys !! i) <> "".
Proof. unfold keys. do 9 (destruct i as [|i]; [done|]). done. Qed.

(** Manual speaker [i] is lit exactly while its key is held; its id
    belongs to no other speaker.  The keys are "1" to "9" for the first
    nine speakers and "?" for every later one, so from the tenth speaker
    on they can only light all together. *)
Theorem manual_speaker_lit_by_its_key n i (held : gset string) :
  (i < n)%nat ->
  let key := default "?" (keys !! i) in
  NoDup (map id (manualSpeakers n)) /\
  ((i < 9)%nat -> key = pretty (i + 1)%nat) /\
  ((9 <= i)%nat -> key = "?") /\
  (("manual_" +:+ pretty i) ∈ manualActiveIds held (manualSpeakers n)
   <-> toLowerCase key ∈ held) /\
  (forall j, (9 <= i)%nat -> (9 <= j < n)%nat ->
     ("manual_" +:+ pretty i) ∈ manualActiveIds held (manualSpeakers n) <->
     ("manual_" +:+ pretty j) ∈ manualActiveIds held (manualSpeakers n)).
Proof.
  intros Hi key.
  assert (Hlit : forall k, (k < n)%nat ->
            ("manual_" +:+ pretty k) ∈ manualActiveIds held (manualSpeakers n)
            <-> toLowerCase (default "?" (keys !! k)) ∈ held).
  { intros k Hk. unfold manualActiveIds. rewrite list_elem_of_fmap. split.
    - intros (s & Hid & Hin).
      apply list_elem_of_In, filter_In in Hin as [Hin Hheld].
      apply list_elem_of_In, list_elem_of_lookup in Hin as [j Hj].
      assert (Hjn : (j < n)%nat).
      { apply lookup_lt_Some in Hj. unfold manualSpeakers in Hj.
        by rewrite length_fmap, length_seq in Hj. }
      rewrite manualSpeakers_lookup in Hj by done. injection Hj as <-.
      simpl in Hid. apply (inj (String.app "manual_")) in Hid.
      apply (inj pretty) in Hid. subst j.
      unfold keyHeld in Hheld. simpl in Hheld.
      destruct (decide (default "?" (keys !! k) = "")); [done|].
      by apply bool_decide_eq_true in Hheld.
    - intros Hheld.
      exists (mkSpeakerProfile ("manual_" +:+ pretty k)
                ("Speaker " +:+ pretty (k + 1)%nat) None
                (generateSpeakerColor k) (Some (default "?" (keys !! k)))).
      split; [|apply list_elem_of_In, filter_In; split].
      + reflexivity.
      + apply list_elem_of_In, list_elem_of_lookup. exists k.
        by apply manualSpeakers_lookup.
      + unfold keyHeld. simpl.
        destruct (decide (default "?" (keys !! k) = "")) as [E|_].
        * by apply keys_nonempty in E.
        * by apply bool_decide_eq_true. }
  split; [apply manualSpeakers_NoDup|].
  split.
  { intros H9. subst key. unfold keys.
    do 9 (destruct i as [|i]; [done|]). lia. }
  assert (Hq : forall k, (9 <= k)%nat -> default "?" (keys !! k) = "?").
  { intros k Hk. unfold keys. do 9 (destruct k as [|k]; [lia|]). done. }
  split; [by apply Hq|]. split; [by apply Hlit|].
  intros j Hi9 [Hj9 Hjn]. rewrite (Hlit i Hi), (Hlit j Hjn).
  by rewrite (Hq i Hi9), (Hq j Hj9).
Qed.
End Manual.

Lemma manual_speaker_lit_by_its_key_witness :
  let key := default "?" (keys !! 10%nat) in
  NoDup (map id (manualSpeakers (fun _ => "#000000") 12)) /\
  ((10 < 9)%nat -> key = pretty (10 + 1)%nat) /\
  ((9 <= 10)%nat -> key = "?") /\
  (("manual_" +:+ pretty 10%nat)
     ∈ manualActiveIds (fun k => k) {["?"]} (manualSpeakers (fun _ => "#000000") 12)
   <-> (fun k : string => k) key ∈ ({["?"]} : gset string)) /\
  (forall j, (9 <= 10)%nat -> (9 <= j < 12)%nat ->
     ("manual_" +:+ pretty 10%nat)
       ∈ manualActiveIds (fun k => k) {["?"]} (manualSpeakers (fun _ => "#000000") 12) <->
     ("manual_" +:+ pretty j)
       ∈ manualActiveIds (fun k => k) {["?"]} (manualSpeakers (fun _ => "#000000") 12)).
Proof.
  apply (manual_speaker_lit_by_its_key (fun _ => "#000000") (fun k => k) 12 10).
  lia.
Defined.

Section ManualKeys.
Variable toLowerCase : string -> string.

End ManualKeys.


(** ** Editing a speaker *)

Definition handleUpdateName (speakerId newName : string)
    (prev : list SpeakerProfile) : list SpeakerProfile :=
  map (fun s => if decide (id s = speakerId)
                then mkSpeakerProfile (id s) newName (imageUrl s) (color s)
                                      (triggerKey s)
                else s) prev.

Definition handleUpdateColor (speakerId newColor : string)
    (prev : list SpeakerProfile) : list SpeakerProfile :=
  map (fun s => if decide (id s = speakerId)
                then mkSpeakerProfile (id s) (name s) (imageUrl s) newColor
                                      (triggerKey s)
                else s) prev.

(** [handleSaveEditedImage]: [imageUrl] is the object URL made for the
    edited blob; a null or empty [editingSpeakerId] is falsy. *)
Definition handleSaveEditedImage (editingSpeakerId : option string)
    (newUrl : string) (prev : list SpeakerProfile) : list SpeakerProfile :=
  match editingSpeakerId with
  | Some sid =>
      if decide (sid = "") then prev
      else map (fun s => if decide (id s = sid)
                         then mkSpeakerProfile (id s) (name s) (Some newUrl)
                                               (color s) (triggerKey s)
                         else s) prev
  | None => prev
  end.

(** What the three edits have in common. *)
Definition edits_one_field (edit : list SpeakerProfile -> list SpeakerProfile)
    (sid : string) : Prop :=
  forall prev,
    map id (edit prev) = map id prev /\
    map triggerKey (edit prev) = map triggerKey prev /\
    (forall i s, prev !! i = Some s -> id s <> sid -> edit prev !! i = Some s) /\
    (sid ∉ map id prev -> edit prev = prev).

Lemma map_if_edits_one_field (f : SpeakerProfile -> SpeakerProfile) sid :
  (forall s, id (f s) = id s /\ triggerKey (f s) = triggerKey s) ->
  edits_one_field (map (fun s => if decide (id s = sid) then f s else s)) sid.
Proof.
  intros Hf prev. split; [|split; [|split]].
  - rewrite <- list_fmap_compose. apply list_fmap_ext. intros i s _. simpl.
    destruct (decide (id s = sid)); [apply Hf|done].
  - rewrite <- list_fmap_compose. apply list_fmap_ext. intros i s _. simpl.
    destruct (decide (id s = sid)); [apply Hf|done].
  - intros i s Hs Hne. rewrite list_lookup_fmap, Hs. simpl.
    by destruct (decide (id s = sid)).
  - intros Hnot. rewrite <- (list_fmap_id prev) at 2.
    apply list_fmap_ext. intros i s Hs. simpl.
    destruct (decide (id s = sid)) as [E|]; [|done].
    destruct Hnot. apply list_elem_of_fmap. exists s. split; [done|].
    by apply list_elem_of_lookup_2 in Hs.
Qed.

Lemma filter_map_ext {A B} (f : A -> bool) (k : A -> B) (e : A -> A) l :
  (forall x, f (e x) = f x) -> (forall x, k (e x) = k x) ->
  map k (List.filter f (map e l)) = map k (List.filter f l).
Proof.
  intros Hf Hk. induction l as [|x l IH]; [done|]. simpl.
  rewrite Hf. destruct (f x); simpl; by rewrite ?Hk, IH.
Qed.

(** Renaming, recolouring or giving a new image to speaker [sid] keeps
    the ids, the order and the trigger keys of all speakers, leaves every
    speaker with another id as it was, does nothing when no speaker has
    that id, and so never changes which speakers the held keys light. *)
Theorem speaker_edits_keep_ids_and_keys toLowerCase sid value held prev :
  edits_one_field (handleUpdateName sid value) sid /\
  edits_one_field (handleUpdateColor sid value) sid /\
  edits_one_field (handleSaveEditedImage (Some sid) value) sid /\
  handleSaveEditedImage None value prev = prev /\
  (forall s, s ∈ handleUpdateName sid value prev -> id s = sid -> name s = value) /\
  manualActiveIds toLowerCase held (handleUpdateName sid value prev)
  = manualActiveIds toLowerCase held prev /\
  manualActiveIds toLowerCase held (handleUpdateColor sid value prev)
  = manualActiveIds toLowerCase held prev /\
  manualActiveIds toLowerCase held (handleSaveEditedImage (Some sid) value prev)
  = manualActiveIds toLowerCase held prev.
Proof.
  split.
  { apply (map_if_edits_one_field
             (fun s => mkSpeakerProfile (id s) value (imageUrl s) (color s)
                                        (triggerKey s))). done. }
  split.
  { apply (map_if_edits_one_field
             (fun s => mkSpeakerProfile (id s) (name s) (imageUrl s) value
                                        (triggerKey s))). done. }
  split.
  { unfold handleSaveEditedImage. destruct (decide (sid = "")) as [->|_].
    - intros l. by repeat split.
    - apply (map_if_edits_one_field
               (fun s => mkSpeakerProfile (id s) (name s) (Some value) (color s)
                                          (triggerKey s))). done. }
  split; [done|]. split.
  { intros s Hin Hid. unfold handleUpdateName in Hin.
    apply list_elem_of_fmap in Hin as (s0 & -> & _).
    destruct (decide (id s0 = sid)) as [|Hne]; [done|]. by destruct Hne. }
  unfold manualActiveIds, handleUpdateName, handleUpdateColor,
    handleSaveEditedImage.
  split; [|split].
  - apply filter_map_ext; intros s; unfold keyHeld;
      by destruct (decide (id s = sid)).
  - apply filter_map_ext; intros s; unfold keyHeld;
      by destruct (decide (id s = sid)).
  - destruct (decide (sid = "")); [done|].
    apply filter_map_ext; intros s; unfold keyHeld;
      by destruct (decide (id s = sid)).
Qed.

(** * The time display of the audio player *)

From Stdlib Require Import Qround.
Local Open Scope Z_scope.

(** Truncation toward zero, as in the quotient of [%]. *)
Definition Qtrunc (x : Q) : Z := if Qle_bool 0 x then Qfloor x else Qceiling x.

(** [a % b] on numbers (over the rationals). *)
Definition jsRem (a b : Q) : Q := (a - b * inject_Z (Qtrunc (a / b)))%Q.

Fixpoint zeros (n : nat) : string :=
  match n with
  | O => ""
  | S n' => "0" +:+ zeros n'
  end.

(** [s.padStart(targetLength, '0')]. *)
Definition padStart0 (targetLength : nat) (s : string) : string :=
  zeros (targetLength - String.length s) +:+ s.

(** [formatTime] of [AudioPlayer]; the time is a finite number, read as a
    rational, and [toString] of a whole number is its decimal notation. *)
Definition formatTime (time : Q) : string :=
  let minutes := Qfloor (time / 60) in
  let seconds := Qfloor (jsRem time 60) in
  pretty minutes +:+ ":" +:+ padStart0 2 (pretty seconds).

Lemma Qfloor_unique (x : Q) (z : Z) :
  (inject_Z z <= x)%Q -> (x < inject_Z (z + 1))%Q -> Qfloor x = z.
Proof.
  intros Hle Hlt.
  assert (H1 : z <= Qfloor x).
  { rewrite <- (Qfloor_Z z). by apply Qfloor_resp_le. }
  assert (H2 : Qfloor x < z + 1).
  { rewrite Zlt_Qlt. eapply Qle_lt_trans; [apply Qfloor_le|done]. }
  lia.
Qed.

Lemma Qfloor_div_60 (time : Q) : Qfloor (time / 60) = Qfloor time / 60.
Proof.
  set (m := Qfloor (time / 60)).
  assert (Hlo : (inject_Z m <= time / 60)%Q) by apply Qfloor_le.
  assert (Hhi : (time / 60 < inject_Z (m + 1))%Q) by apply Qlt_floor.
  assert (E : (time == 60 * (time / 60))%Q) by field.
  assert (Hlo' : (inject_Z (60 * m) <= time)%Q).
  { rewrite inject_Z_mult, E. change (inject_Z 60) with 60%Q. lra. }
  assert (Hhi' : (time < inject_Z (60 * m + 60))%Q).
  { rewrite inject_Z_plus, inject_Z_mult in *.
    change (inject_Z 60) with 60%Q. change (inject_Z 1) with 1%Q in Hhi.
    rewrite E. lra. }
  assert (H1 : 60 * m <= Qfloor time).
  { rewrite <- (Qfloor_Z (60 * m)). by apply Qfloor_resp_le. }
  assert (H2 : Qfloor time < 60 * m + 60).
  { rewrite Zlt_Qlt. eapply Qle_lt_trans; [apply Qfloor_le|done]. }
  apply (Z.div_unique _ _ _ (Qfloor time - 60 * m)); lia.
Qed.

Lemma Qfloor_minus_Z (x : Q) (z : Z) : Qfloor (x - inject_Z z) = Qfloor x - z.
Proof.
  apply Qfloor_unique.
  - unfold Zminus. rewrite inject_Z_plus, inject_Z_opp.
    pose proof (Qfloor_le x). lra.
  - replace (Qfloor x - z + 1) with ((Qfloor x + 1) + - z) by lia.
    rewrite inject_Z_plus, inject_Z_opp.
    pose proof (Qlt_floor x). lra.
Qed.

Lemma two_digits (s : Z) :
  0 <= s < 60 -> String.length (padStart0 2 (pretty s)) = 2%nat.
Proof.
  intros Hs. replace s with (Z.of_nat (Z.to_nat s)) by lia.
  assert (Hn : (Z.to_nat s < 60)%nat) by lia.
  generalize dependent (Z.to_nat s). clear Hs. intros n Hn.
  do 60 (destruct n as [|n]; [vm_compute; reflexivity|]). lia.
Qed.

(** For a time of [t] whole seconds and a fraction, [t >= 0], the display
    is the minutes [t / 60] in decimal, a colon, and the seconds
    [t mod 60] on exactly two characters. *)
Theorem formatTime_minutes_and_two_digit_seconds (time : Q) :
  (0 <= time)%Q ->
  let t := Qfloor time in
  formatTime time
  = pretty (t / 60) +:+ ":" +:+ padStart0 2 (pretty (t mod 60)) /\
  String.length (padStart0 2 (pretty (t mod 60))) = 2%nat /\
  0 <= t mod 60 < 60 /\ 60 * (t / 60) + t mod 60 = t.
Proof.
  intros Hpos t. unfold formatTime.
  assert (Hm : Qfloor (time / 60) = t / 60) by apply Qfloor_div_60.
  assert (Hs : Qfloor (jsRem time 60) = t mod 60).
  { unfold jsRem, Qtrunc.
    assert (Hq : (0 <= time / 60)%Q).
    { apply Qle_shift_div_l; [done|]. lra. }
    apply Qle_bool_iff in Hq. rewrite Hq, Hm.
    assert (E : (time - 60 * inject_Z (t / 60) == time - inject_Z (60 * (t / 60)))%Q).
    { rewrite inject_Z_mult. change (inject_Z 60) with 60%Q. ring. }
    rewrite E, Qfloor_minus_Z. fold t. rewrite Z.mod_eq by lia. lia. }
  rewrite Hm, Hs.
  assert (Hr : 0 <= t mod 60 < 60) by (apply Z.mod_pos_bound; lia).
  split; [done|]. split; [by apply two_digits|]. split; [done|].
  rewrite Z.mod_eq by lia. lia.
Qed.

Lemma formatTime_minutes_and_two_digit_seconds_witness :
  let t := Qfloor (251 # 2) in
  formatTime (251 # 2)
  = pretty (t / 60) +:+ ":" +:+ padStart0 2 (pretty (t mod 60)) /\
  String.length (padStart0 2 (pretty (t mod 60))) = 2%nat /\
  0 <= t mod 60 < 60 /\ 60 * (t / 60) + t mod 60 = t.
Proof.
  apply (formatTime_minutes_and_two_digit_seconds (251 # 2)).
  unfold Qle. simpl. lia.
Defined.

Example formatTime_examples :
  formatTime (251 # 2) = "2:05" /\ formatTime 0 = "0:00" /\
  formatTime 3599 = "59:59" /\ formatTime 3600 = "60:00".
Proof. vm_compute. done. Qed.
